(** * Veo3: the video generation queue of [services/geminiService.ts]

    A shallow embedding of [VideoGenerationQueue] (the scheduler, the
    backoff retrier and the task executor) and of the job list of
    [App.tsx], with the properties of the engine stated over it.

    Conventions of the embedding.
    - JavaScript numbers that hold times are rationals ([Q]); the powers of
      1.5 and 1.3 are exact rationals here.
    - A thrown value is a [JsError]: the three fields the code inspects.
    - An [async] body is a computation in the monad [M]: it threads the state
      of the environment ([World]: the remote service and the network) and
      appends the effects a caller can observe to a chronological [log]:
      progress messages, timer waits, console warnings and remote calls. *)

From Stdlib Require Import QArith Qround Qminmax Lqa DecimalString Ascii.
From stdpp Require Import gmap strings list.

Open Scope list_scope.

(** ** Thrown values *)

Record JsError := mkError {
  status : option Z;
  code : option Z;
  message : option string
}.

(** [new Error(msg)] *)
Definition newError (msg : string) : JsError :=
  {| status := None; code := None; message := Some msg |}.

(** The value of a variable that was never assigned. *)
Definition undefinedError : JsError :=
  {| status := None; code := None; message := None |}.

Definition statusIs (n : Z) (o : option Z) : bool :=
  match o with Some s => Z.eqb s n | None => false end.

Inductive Outcome (A : Type) : Type :=
| Ok (a : A)
| Throw (e : JsError).
Arguments Ok {A} a.
Arguments Throw {A} e.

(** ** Observable effects *)

Inductive Remote : Type :=
| Submit            (* ai.models.generateVideos *)
| Poll              (* ai.operations.getVideosOperation *)
| Fetch (index : nat). (* fetch of the download link of video [index] *)

Inductive Event : Type :=
| Progress (msg : string)   (* onProgress(msg) *)
| Sleep (ms : Q)            (* await sleep(ms) *)
| Console (msg : string)    (* console.warn / console.error *)
| Call (c : Remote).        (* one invocation of a remote operation *)

Definition isCall (c : Remote) (ev : Event) : bool :=
  match ev, c with
  | Call Submit, Submit => true
  | Call Poll, Poll => true
  | Call (Fetch i), Fetch j => Nat.eqb i j
  | _, _ => false
  end.

(** Number of invocations of the remote operation [c] recorded in a log. *)
Definition attempts (c : Remote) (l : list Event) : nat :=
  length (filter (fun ev => isCall c ev = true) l).

(** The timer waits recorded in a log, in order. *)
Fixpoint sleeps (l : list Event) : list Q :=
  match l with
  | [] => []
  | Sleep ms :: l' => ms :: sleeps l'
  | _ :: l' => sleeps l'
  end.

(** ** Numbers and their rendering *)

(** [Math.pow(b, n)] for a natural exponent. *)
Fixpoint pow (b : Q) (n : nat) : Q :=
  match n with
  | O => 1
  | S n' => b * pow b n'
  end.

(** [Math.round]: the nearest integer, halves rounded up. *)
Definition round (x : Q) : Z := Qfloor (x + (1 # 2)).

Definition showNat (n : nat) : string := NilZero.string_of_uint (Nat.to_uint n).
Definition showZ (z : Z) : string := NilZero.string_of_int (Z.to_int z).

(** [s.includes(sub)] *)
Definition includes (s sub : string) : bool :=
  match String.index 0 sub s with Some _ => true | None => false end.

Section Engine.

(** The environment: the remote service and the network. *)
Context {World : Type}.

Record St := mkSt {
  world : World;
  log : list Event
}.

Definition M (A : Type) : Type := St -> Outcome A * St.

Definition ret {A} (a : A) : M A := fun st => (Ok a, st).

Definition throw {A} (e : JsError) : M A := fun st => (Throw e, st).

Definition bind {A B} (m : M A) (k : A -> M B) : M B :=
  fun st =>
    match m st with
    | (Ok a, st') => k a st'
    | (Throw e, st') => (Throw e, st')
    end.

(** [try { m } catch (error) { handler }] *)
Definition tryCatch {A} (m : M A) (handler : JsError -> M A) : M A :=
  fun st =>
    match m st with
    | (Ok a, st') => (Ok a, st')
    | (Throw e, st') => handler e st'
    end.

Definition emit (ev : Event) : M unit :=
  fun st => (Ok tt, {| world := world st; log := log st ++ [ev] |}).

Definition onProgress (msg : string) : M unit := emit (Progress msg).
Definition sleep (ms : Q) : M unit := emit (Sleep ms).
Definition console (msg : string) : M unit := emit (Console msg).

(** One invocation of a remote operation: the call is recorded and the
    environment answers and moves on. *)
Definition remote {A} (c : Remote) (op : World -> Outcome A * World) : M A :=
  fun st =>
    let (r, w') := op (world st) in
    (r, {| world := w'; log := log st ++ [Call c] |}).

Notation "'let*' x := m 'in' k" := (bind m (fun x => k))
  (at level 10, x name, m at level 100, k at level 200).
Notation "'exec' m ; k" := (bind m (fun _ => k))
  (at level 10, m at level 100, k at level 200).

(** ** The backoff retrier: [retryWithBackoff] *)

(** [error.status === 400 || error.status === 401 || error.status === 403] *)
Definition nonRetryable (error : JsError) : bool :=
  statusIs 400 (status error) || statusIs 401 (status error)
  || statusIs 403 (status error).

Definition retryDelay (baseDelay : Q) (attempt : nat) : Q :=
  (baseDelay * pow (3 # 2) attempt)%Q.

Definition retryMessage (attempt maxRetries : nat) (delay : Q) : string :=
  "⏳ Service unavailable (attempt " +:+ showNat (attempt + 1) +:+ "/"
  +:+ showNat (maxRetries + 1) +:+ "), retrying in "
  +:+ showZ (round (delay / 1000)) +:+ "s...".

(** [throw lastError!] *)
Definition throwLast {T} (lastError : option JsError) : M T :=
  match lastError with
  | Some e => throw e
  | None => throw undefinedError
  end.

(** The [for] loop of the retrier. [todo] counts the iterations the loop
    header still admits ([maxRetries + 1 - attempt]); the guard
    [attempt <= maxRetries] is kept as written. *)
Fixpoint retryLoop {T} (fn : M T) (maxRetries : nat) (baseDelay : Q)
    (todo attempt : nat) (lastError : option JsError) : M T :=
  match todo with
  | O => throwLast lastError
  | S todo' =>
    if (attempt <=? maxRetries)%nat then
      tryCatch fn (fun error =>
        if nonRetryable error then throw error
        else if (attempt =? maxRetries)%nat then throw error
        else
          let delay := retryDelay baseDelay attempt in
          exec onProgress (retryMessage attempt maxRetries delay);
          exec sleep delay;
          retryLoop fn maxRetries baseDelay todo' (S attempt) (Some error))
    else throwLast lastError
  end.

Definition retryWithBackoff {T} (fn : M T) (maxRetries : nat) (baseDelay : Q)
    : M T :=
  retryLoop fn maxRetries baseDelay (S maxRetries) 0 None.

(** ** The task executor: [executeGeneration] *)

(** [operation.response?.generatedVideos] and [videoData.video?.uri] are
    optional; a missing [response] and a missing [generatedVideos] are both
    [None]. *)
Record VideoData := mkVideo { uri : option string }.

Record Operation := mkOperation {
  name : string;
  done : bool;
  generatedVideos : option (list VideoData)
}.

Record File := mkFile { fileType : string; fileContent : string }.

Record VideoConfig := mkConfig {
  aspectRatio : string;
  enableSound : bool;
  resolution : string;
  duration : nat;
  model : string
}.

Record Image := mkImage { imageBytes : string; mimeType : string }.

Record Payload := mkPayload {
  payloadModel : string;
  payloadPrompt : string;
  payloadNumberOfVideos : nat;
  payloadAspectRatio : string;
  payloadImage : option Image
}.

(** What [fetch] resolves to. *)
Record Response := mkResponse {
  ok : bool;
  resStatus : nat;
  statusText : string;
  blob : string
}.

(** The collaborators of the executor. Each remote operation answers from
    the current state of the environment and moves it on. *)
Variable fileToBase64 : File -> World -> Outcome string * World.
Variable generateVideos : string -> Payload -> World -> Outcome Operation * World.
Variable getVideosOperation : string -> Operation -> World -> Outcome Operation * World.
Variable fetch : nat -> string -> World -> Outcome Response * World.
Variable createObjectURL : string -> string.
(** The order in which the download promises settle (their indices). *)
Variable settleOrder : World -> list nat.

Definition progressMessages : list string :=
  [ "🔍 Analyzing your prompt...";
    "🎬 Storyboarding the scenes...";
    "🎨 Rendering frames with correct aspect ratio...";
    "✨ Adding final touches...";
    "🚀 Almost there..." ].

Definition maxPollAttempts : nat := 100.

Definition timeoutMessage : string :=
  "⏰ Video generation timed out after 25 minutes. The service may be experiencing high load. Please try again later.".

Definition noVideosMessage : string :=
  "❌ Video generation failed or returned no videos.".

Definition allDownloadsFailedMessage : string :=
  "❌ All video downloads failed. Please try again.".

Definition unavailableMessage : string :=
  "🔄 Google Veo 3 service is currently unavailable. Your request is queued and will retry automatically with intelligent backoff.".

(** [error.status === 503 || error.code === 503] *)
Definition is503 (error : JsError) : bool :=
  statusIs 503 (status error) || statusIs 503 (code error).

Definition showMessage (error : JsError) : string :=
  match message error with Some m => m | None => "undefined" end.

(** The variables of the polling loop. *)
Record Loop := mkLoop {
  operation : Operation;
  pollAttempts : nat;
  messageIndex : nat
}.

(** [if (messageIndex < progressMessages.length)
       onProgress(progressMessages[messageIndex++])] *)
Definition stageMessage (messageIndex : nat) : M nat :=
  if (messageIndex <? length progressMessages)%nat then
    exec onProgress (nth messageIndex progressMessages "");
    ret (S messageIndex)
  else ret messageIndex.

(** The wait after a 503 during polling. *)
Definition pollBackoff (pollAttempts : nat) : Q :=
  Qmin (3000 * pow (13 # 10) (pollAttempts mod 10)) 30000.

(** The status refresh of one iteration, with its [catch]. *)
Definition refresh (apiKey : string) (operation : Operation) (pollAttempts : nat)
    : M Operation :=
  tryCatch
    (retryWithBackoff (remote Poll (getVideosOperation apiKey operation)) 5 3000)
    (fun error =>
      exec console ("Polling attempt " +:+ showNat pollAttempts +:+ " failed: "
                    +:+ showMessage error);
      if is503 error then
        exec onProgress "⚠️ Service temporarily unavailable, retrying with backoff...";
        exec sleep (pollBackoff pollAttempts);
        ret operation
      else if negb (statusIs 503 (status error)) && negb (statusIs 503 (code error))
      then throw error
      else ret operation).

(** The body of the [while] loop. *)
Definition pollIteration (apiKey : string) (ls : Loop) : M Loop :=
  exec sleep 15000;
  let pollAttempts' := S (pollAttempts ls) in
  let* messageIndex' := stageMessage (messageIndex ls) in
  let* operation' := refresh apiKey (operation ls) pollAttempts' in
  ret {| operation := operation';
         pollAttempts := pollAttempts';
         messageIndex := messageIndex' |}.

(** [while (!operation.done && pollAttempts < maxPollAttempts)]. [todo]
    bounds the iterations left ([maxPollAttempts - pollAttempts]); the guard
    is kept as written. *)
Fixpoint pollLoop (apiKey : string) (todo : nat) (ls : Loop) : M Loop :=
  match todo with
  | O => ret ls
  | S todo' =>
    if negb (done (operation ls)) && (pollAttempts ls <? maxPollAttempts)%nat then
      let* ls' := pollIteration apiKey ls in
      pollLoop apiKey todo' ls'
    else ret ls
  end.

(** *** Downloading *)

(** One element of [downloadPromises]: the async callback of
    [generatedVideos.map] applied to [videoData] at [index]. *)
Definition downloadTask (apiKey : string) (index : nat) (videoData : VideoData)
    : M (option string) :=
  let missing : M (option string) :=
    exec console ("Video " +:+ showNat (index + 1) +:+ " was missing a download link.");
    ret None in
  match uri videoData with
  | None => missing
  | Some downloadLink =>
    if String.eqb downloadLink "" then missing
    else
      let* response :=
        retryWithBackoff
          (let* res := remote (Fetch index) (fetch index (downloadLink +:+ "&key=" +:+ apiKey)) in
           if negb (ok res) then
             throw (newError ("Failed to download video " +:+ showNat (index + 1) +:+ ": "
                              +:+ showNat (resStatus res) +:+ " " +:+ statusText res))
           else ret res)
          5 2000 in
      let videoBlob := blob response in
      ret (Some (createObjectURL videoBlob))
  end.

(** The promises of a list of started tasks, each run to its settlement. The
    tasks share no variable of the program; the index of a [Fetch] tells the
    environment which task is asking, so the answers to one task are
    unconstrained by the requests of the others, and the log keeps the
    events of each task together. A rejected task does not stop the others. *)
Fixpoint settleAll {A} (tasks : list (M A)) (st : St) : list (Outcome A) * St :=
  match tasks with
  | [] => ([], st)
  | t :: ts =>
    let (r, st1) := t st in
    let (rs, st2) := settleAll ts st1 in
    (r :: rs, st2)
  end.

(** The values of the promises when every one is fulfilled. *)
Fixpoint fulfilled {A} (rs : list (Outcome A)) : option (list A) :=
  match rs with
  | [] => Some []
  | Ok a :: rs' => match fulfilled rs' with Some vs => Some (a :: vs) | None => None end
  | Throw _ :: _ => None
  end.

Fixpoint firstThrow {A} (rs : list (Outcome A)) : option JsError :=
  match rs with
  | [] => None
  | Throw e :: _ => Some e
  | Ok _ :: rs' => firstThrow rs'
  end.

(** The reason of the promise that rejects first, the promises settling in
    the order [order]. *)
Fixpoint firstRejection {A} (order : list nat) (rs : list (Outcome A))
    : option JsError :=
  match order with
  | [] => firstThrow rs
  | i :: order' =>
    match rs !! i with
    | Some (Throw e) => Some e
    | _ => firstRejection order' rs
    end
  end.

(** [await Promise.all(promises)]: the values in the order of the promises,
    or the reason of the first promise to reject. *)
Definition promiseAll {A} (tasks : list (M A)) : M (list A) :=
  fun st =>
    let (rs, st') := settleAll tasks st in
    match fulfilled rs with
    | Some vs => (Ok vs, st')
    | None =>
      match firstRejection (settleOrder (world st')) rs with
      | Some e => (Throw e, st')
      | None => (Throw undefinedError, st')
      end
    end.

(** The code after the polling loop. *)
Definition completeStage (apiKey : string) (ls : Loop) : M (list string) :=
  if (maxPollAttempts <=? pollAttempts ls)%nat then throw (newError timeoutMessage)
  else
    match generatedVideos (operation ls) with
    | None => throw (newError noVideosMessage)
    | Some generatedVideos =>
      if (length generatedVideos =? 0)%nat then throw (newError noVideosMessage)
      else
        exec onProgress ("📥 Downloading " +:+ showNat (length generatedVideos)
                         +:+ " generated video(s)...");
        let* results := promiseAll (imap (downloadTask apiKey) generatedVideos) in
        let videoUrls := omap id results in
        if (length videoUrls =? 0)%nat then throw (newError allDownloadsFailedMessage)
        else
          exec onProgress ("✅ Video generation completed! Generated "
                           +:+ showNat (length videoUrls) +:+ " video(s).");
          ret videoUrls
    end.

(** *** Submitting and polling *)

Definition submitStage (apiKey prompt : string) (imageFile : option File)
    (config : VideoConfig) (numberOfVideos : nat) : M Operation :=
  exec onProgress "🔧 Initializing Veo 3 model...";
  let* image :=
    match imageFile with
    | Some file =>
      exec onProgress "🖼️ Processing reference image...";
      let* base64Image := (fun st =>
        let (r, w') := fileToBase64 file (world st) in
        (r, {| world := w'; log := log st |})) in
      ret (Some {| imageBytes := base64Image; mimeType := fileType file |})
    | None => ret None
    end in
  let requestPayload :=
    {| payloadModel := model config;
       payloadPrompt := prompt;
       payloadNumberOfVideos := numberOfVideos;
       payloadAspectRatio := aspectRatio config;
       payloadImage := image |} in
  exec onProgress "📡 Sending request to Google Veo 3 API...";
  retryWithBackoff (remote Submit (generateVideos apiKey requestPayload)) 8 5000.

Definition pollStage (apiKey : string) (operation : Operation) : M Loop :=
  exec onProgress (nth 0 progressMessages "");
  pollLoop apiKey maxPollAttempts
    {| operation := operation; pollAttempts := 0; messageIndex := 1 |}.

(** The outer [catch]: the error handed to the caller. *)
Definition explain (error : JsError) : JsError :=
  if is503 error then newError unavailableMessage
  else if statusIs 429 (status error) then
    newError "⏳ Rate limit exceeded. Your request is queued and will retry automatically."
  else if statusIs 401 (status error) then
    newError "🔑 Invalid API key. Please check your Google AI API key."
  else if statusIs 403 (status error) then
    newError "🚫 Access denied. Please check if your API key has access to Veo 3."
  else if match message error with Some m => includes m "timeout" | None => false end then
    newError "⏰ Request timed out. The service may be experiencing high load."
  else
    newError match message error with
             | Some m => if String.eqb m "" then "❌ Failed to generate video" else m
             | None => "❌ Failed to generate video"
             end.

Definition executeGeneration (apiKey prompt : string) (imageFile : option File)
    (config : VideoConfig) (numberOfVideos : nat) : M (list string) :=
  tryCatch
    (let* operation := submitStage apiKey prompt imageFile config numberOfVideos in
     let* ls := pollStage apiKey operation in
     completeStage apiKey ls)
    (fun error =>
      exec console ("Video generation error: " +:+ showMessage error);
      throw (explain error)).

End Engine.

(** The stage messages (those of [progressMessages]) recorded in a log. *)
Fixpoint stageMessages (l : list Event) : list string :=
  match l with
  | [] => []
  | Progress msg :: l' =>
    if bool_decide (msg ∈ progressMessages) then msg :: stageMessages l'
    else stageMessages l'
  | _ :: l' => stageMessages l'
  end.

(** * The scheduler and its caller

    The state of the page: the [VideoGenerationQueue] instance [videoQueue]
    and the job list of [App]. The callbacks stored in a queue item
    ([onProgress], [resolve], [reject]) are closures of [handleGenerate] over
    one job of the list; an item records that job as its [sink]. *)

Module VideoQueue.

Record Request := mkRequest {
  apiKey : string;
  prompt : string;
  imageFile : option File;
  config : VideoConfig;
  numberOfVideos : nat
}.

Record QueueItem := mkItem {
  id : string;
  request : Request;   (* the arguments captured by [execute] *)
  sink : nat           (* the job updated by [onProgress], [resolve], [reject] *)
}.

Inductive JobStatus := loading | success | error.

Record GenerationJob := mkJob {
  jobId : nat;
  jobStatus : JobStatus;
  url : option string;
  jobMessage : string
}.

Record System := mkSystem {
  (* VideoGenerationQueue *)
  queue : list QueueItem;
  running : gset string;
  maxConcurrent : nat;
  (* App *)
  jobs : list GenerationJob;
  nextJobId : nat;
  (* the event loop: the items whose [execute()] is awaited, and the number
     of pending [setTimeout(() => this.processQueue(), 3000)] *)
  executing : list QueueItem;
  timers : nat;
  (* history: the identifiers in the order of admission and of start *)
  admitted : list string;
  started : list string
}.

(** [new VideoGenerationQueue(maxConcurrent)] on a page without jobs. *)
Definition init (maxConcurrent : nat) : System :=
  {| queue := []; running := ∅; maxConcurrent := maxConcurrent;
     jobs := []; nextJobId := 0; executing := []; timers := 0;
     admitted := []; started := [] |}.

Definition setJobs (f : list GenerationJob -> list GenerationJob) (s : System)
    : System :=
  {| queue := queue s; running := running s; maxConcurrent := maxConcurrent s;
     jobs := f (jobs s); nextJobId := nextJobId s;
     executing := executing s; timers := timers s;
     admitted := admitted s; started := started s |}.

(** The three closures of [handleGenerate] over [jobId]. *)
Definition updateJobProgress (j : nat) (message : string) : System -> System :=
  setJobs (map (fun job =>
    if (jobId job =? j)%nat then
      {| jobId := jobId job; jobStatus := jobStatus job; url := url job;
         jobMessage := message |}
    else job)).

Definition resolved (j : nat) (videoUrls : list string) : System -> System :=
  setJobs (map (fun job =>
    if (jobId job =? j)%nat then
      {| jobId := jobId job; jobStatus := success; url := head videoUrls;
         jobMessage := "Completed" |}
    else job)).

Definition rejected (j : nat) (err : JsError) : System -> System :=
  setJobs (map (fun job =>
    if (jobId job =? j)%nat then
      {| jobId := jobId job; jobStatus := error; url := url job;
         jobMessage := match message err with
                       | Some m => if String.eqb m "" then "An unknown error occurred." else m
                       | None => "An unknown error occurred."
                       end |}
    else job)).

(** [processQueue], up to its [await]. *)
Definition processQueue (s : System) : System :=
  if (maxConcurrent s <=? size (running s))%nat || (length (queue s) =? 0)%nat then s
  else
    match queue s with
    | [] => s
    | item :: rest =>
      let running' := {[ id item ]} ∪ running s in
      updateJobProgress (sink item)
        ("🚀 Starting generation... (" +:+ showNat (size running') +:+ "/"
         +:+ showNat (maxConcurrent s) +:+ " slots used)")
        {| queue := rest; running := running'; maxConcurrent := maxConcurrent s;
           jobs := jobs s; nextJobId := nextJobId s;
           executing := executing s ++ [item]; timers := timers s;
           admitted := admitted s; started := started s ++ [id item] |}
    end.

(** [add]. The identifier built from the clock and the random generator is
    the argument [newId]. *)
Definition add (newId : string) (request : Request) (onProgress : nat)
    (s : System) : System :=
  let queueItem := {| id := newId; request := request; sink := onProgress |} in
  let queue' := (queue s ++ [queueItem])%list in
  processQueue
    (updateJobProgress onProgress
       ("🔄 Added to queue. Position: " +:+ showNat (length queue')
        +:+ ". Running: " +:+ showNat (size (running s)) +:+ "/"
        +:+ showNat (maxConcurrent s))
       {| queue := queue'; running := running s; maxConcurrent := maxConcurrent s;
          jobs := jobs s; nextJobId := nextJobId s;
          executing := executing s; timers := timers s;
          admitted := admitted s ++ [newId]; started := started s |}).

(** The first awaited item with a given identifier, and the others. *)
Fixpoint takeItem (i : string) (l : list QueueItem)
    : option (QueueItem * list QueueItem) :=
  match l with
  | [] => None
  | item :: l' =>
    if String.eqb (id item) i then Some (item, l')
    else match takeItem i l' with
         | Some (found, others) => Some (found, item :: others)
         | None => None
         end
  end.

(** The rest of [processQueue] once [item.execute()] settles with [result]:
    [resolve] or [reject], then the [finally] block. *)
Definition settle (i : string) (result : Outcome (list string)) (s : System)
    : System :=
  match takeItem i (executing s) with
  | None => s
  | Some (item, others) =>
    let s' := match result with
              | Ok videoUrls => resolved (sink item) videoUrls s
              | Throw err => rejected (sink item) err s
              end in
    {| queue := queue s'; running := running s' ∖ {[ id item ]};
       maxConcurrent := maxConcurrent s';
       jobs := jobs s'; nextJobId := nextJobId s';
       executing := others; timers := S (timers s');
       admitted := admitted s'; started := started s' |}
  end.

(** A pending timer fires. *)
Definition fire (s : System) : System :=
  match timers s with
  | O => s
  | S n =>
    processQueue
      {| queue := queue s; running := running s; maxConcurrent := maxConcurrent s;
         jobs := jobs s; nextJobId := nextJobId s;
         executing := executing s; timers := n;
         admitted := admitted s; started := started s |}
  end.

Definition getQueueStatus (s : System) : nat * nat * nat :=
  (length (queue s), size (running s), maxConcurrent s).

(** [handleGenerate] past its two input guards (each returns before a job is
    created), up to the [await] of [generateAndPollVideo], which hands its
    arguments to [videoQueue.add] (its own test of the key cannot fail past
    the guards). *)
Definition handleGenerate (newId : string) (request : Request) (s : System)
    : System :=
  let j := nextJobId s in
  add newId request j
    {| queue := queue s; running := running s; maxConcurrent := maxConcurrent s;
       jobs := jobs s ++ [ {| jobId := j; jobStatus := loading; url := None;
                              jobMessage := "Preparing request..." |} ];
       nextJobId := S j;
       executing := executing s; timers := timers s;
       admitted := admitted s; started := started s |}.

Definition handleDeleteJob (j : nat) : System -> System :=
  setJobs (filter (fun job => jobId job ≠ j)).

(** What can happen to the page: a job is submitted, the [item.execute()] of
    an awaited item (the run of [executeGeneration] on its request) settles
    with a result, a cooldown timer fires, a job is deleted. The result of a
    run is part of the input; the progress messages of a run are not replayed
    on the job list. An input that cannot occur in a state (the settlement of
    an item that is not awaited, a timer that was not set) leaves it
    unchanged. *)
Inductive Input :=
| Generate (newId : string) (request : Request)
| Settle (i : string) (result : Outcome (list string))
| Timer
| Delete (j : nat).

Definition step (s : System) (input : Input) : System :=
  match input with
  | Generate newId request => handleGenerate newId request s
  | Settle i result => settle i result s
  | Timer => fire s
  | Delete j => handleDeleteJob j s
  end.

Definition steps (s : System) (inputs : list Input) : System :=
  foldl step s inputs.

(** Jobs submitted one after the other, nothing else happening in between. *)
Definition admissions (gens : list (string * Request)) : list Input :=
  map (fun g => Generate g.1 g.2) gens.

End VideoQueue.

(** * Runs used to state the properties *)

Section Runs.

Context {World : Type}.
Context {T : Type}.
Variable op : World -> Outcome T * World.
Variable c : Remote.

(** [failing es w w']: from the state [w] of the environment, the operation
    fails [length es] times in a row, with the retryable errors [es] in this
    order, and leaves the environment in [w']. *)
Fixpoint failing (es : list JsError) (w w' : World) : Prop :=
  match es with
  | [] => w' = w
  | e :: es' =>
    exists w1, op w = (Throw e, w1) /\ nonRetryable e = false /\ failing es' w1 w'
  end.

(** What the retrier records for [k] failed attempts from attempt number
    [attempt] on: the call, the notice and the wait of each. *)
Fixpoint retryEvents (maxRetries : nat) (baseDelay : Q) (attempt k : nat)
    : list Event :=
  match k with
  | O => []
  | S k' =>
    Call c
    :: Progress (retryMessage attempt maxRetries (retryDelay baseDelay attempt))
    :: Sleep (retryDelay baseDelay attempt)
    :: retryEvents maxRetries baseDelay (S attempt) k'
  end.

End Runs.

(** The object URL that [downloadTask] returns for a video when the download
    of a link answers with the content [content link]; nothing for a video
    without a download link. *)
Definition downloaded (createObjectURL : string -> string)
    (content : string -> string) (apiKey : string) (videoData : VideoData)
    : option string :=
  match uri videoData with
  | None => None
  | Some downloadLink =>
    if String.eqb downloadLink "" then None
    else Some (createObjectURL (content (downloadLink +:+ "&key=" +:+ apiKey)))
  end.

(** The running set and the history of the queue agree with the items whose
    run is awaited, and a waiting item is never left without a future
    dispatch: with a free slot, a cooldown timer is pending. *)
Definition consistent (s : VideoQueue.System) : Prop :=
  VideoQueue.admitted s
  = VideoQueue.started s ++ (VideoQueue.id <$> VideoQueue.queue s)
  /\ NoDup (VideoQueue.id <$> VideoQueue.executing s)
  /\ VideoQueue.running s = list_to_set (VideoQueue.id <$> VideoQueue.executing s)
  /\ (forall i, i ∈ VideoQueue.id <$> VideoQueue.executing s ->
                 i ∈ VideoQueue.started s)
  /\ (VideoQueue.queue s <> [] ->
       (VideoQueue.maxConcurrent s
        <= size (VideoQueue.running s) + VideoQueue.timers s)%nat).

(** The identifiers of the jobs shown on the page. *)
Definition jobIds (s : VideoQueue.System) : list nat :=
  VideoQueue.jobId <$> VideoQueue.jobs s.

(** A video without a download link: [!downloadLink]. *)
Definition linkMissing (videoData : VideoData) : Prop :=
  uri videoData = None \/ uri videoData = Some ""%string.

(** Concrete environments. The state of the environment is the number of
    requests it has answered. *)
Module Scenario.

Import VideoQueue.

Definition unavailable : JsError :=
  {| status := Some 503%Z; code := None; message := Some "Service Unavailable"%string |}.

Definition forbidden : JsError :=
  {| status := Some 403%Z; code := None; message := Some "Forbidden"%string |}.

(** An operation that is always refused. *)
Definition denied : nat -> Outcome string * nat :=
  fun calls => (Throw forbidden, S calls).

(** An operation that fails with a 503 [k] times and succeeds afterwards. *)
Definition flaky (k : nat) : nat -> Outcome string * nat :=
  fun calls =>
    if (calls <? k)%nat then (Throw unavailable, S calls)
    else (Ok "operations/1"%string, S calls).

Definition veo : VideoConfig :=
  {| aspectRatio := "16:9"; enableSound := true; resolution := "1080p";
     duration := 8; model := "veo-3.0-generate-preview" |}.

Definition pendingOperation : Operation :=
  {| name := "operations/1"; done := false; generatedVideos := None |}.

Definition finished (videos : option (list VideoData)) : Operation :=
  {| name := "operations/1"; done := true; generatedVideos := videos |}.

Definition generate : string -> Payload -> nat -> Outcome Operation * nat :=
  fun _ _ polls => (Ok pendingOperation, polls).

(** A service that reports the operation done from status request [doneAt]
    on, with [videos]; with [None] it never does. *)
Definition statusOf (doneAt : option nat) (videos : option (list VideoData))
    : string -> Operation -> nat -> Outcome Operation * nat :=
  fun _ _ polls =>
    match doneAt with
    | Some n =>
      if (n <=? S polls)%nat then (Ok (finished videos), S polls)
      else (Ok pendingOperation, S polls)
    | None => (Ok pendingOperation, S polls)
    end.

(** A network on which the downloads of the videos at the indices [broken]
    always answer 500, and the others answer with the requested URL as
    content. *)
Definition download (broken : list nat) : nat -> string -> nat -> Outcome Response * nat :=
  fun index link polls =>
    if bool_decide (index ∈ broken) then
      (Ok {| ok := false; resStatus := 500; statusText := "Internal Server Error";
             blob := "" |}, polls)
    else
      (Ok {| ok := true; resStatus := 200; statusText := "OK"; blob := link |}, polls).

Definition objectURL (blob : string) : string := "blob:" +:+ blob.

Definition start : St (World:=nat) := {| world := 0%nat; log := [] |}.

Definition submitted : Outcome Operation * St :=
  submitStage (fun _ polls => (Ok ""%string, polls)) generate
    "key" "a prompt" None veo 1 start.

Definition polled (doneAt : option nat) (videos : option (list VideoData))
    : Outcome Loop * St :=
  pollStage (statusOf doneAt videos) "key" pendingOperation submitted.2.

(** One job run against such a service and network. *)
Definition job (doneAt : option nat) (videos : option (list VideoData))
    (broken : list nat) : Outcome (list string) * St :=
  executeGeneration (fun _ polls => (Ok ""%string, polls)) generate
    (statusOf doneAt videos) (download broken) objectURL (fun _ => [])
    "key" "a prompt" None veo 1 start.

Definition threeVideos : list VideoData :=
  [ {| uri := Some "https://videos/1?alt=media"%string |};
    {| uri := Some "https://videos/2?alt=media"%string |};
    {| uri := Some "https://videos/3?alt=media"%string |} ].

(** The same answer with the download link of the second video missing. *)
Definition secondLinkMissing : list VideoData :=
  [ {| uri := Some "https://videos/1?alt=media"%string |};
    {| uri := None |};
    {| uri := Some "https://videos/3?alt=media"%string |} ].

Definition sample : Request :=
  {| apiKey := "key"; prompt := "a prompt"; imageFile := None; config := veo;
     numberOfVideos := 1 |}.

(** Five jobs submitted in a row to the queue of the page (four slots). *)
Definition fiveJobs : list (string * Request) :=
  [ ("video_1_a"%string, sample); ("video_2_b"%string, sample);
    ("video_3_c"%string, sample); ("video_4_d"%string, sample);
    ("video_5_e"%string, sample) ].

Definition fiveAdmitted : System := steps (init 4) (admissions fiveJobs).

(** The fifth job is deleted on the page while pending; then the first job
    completes and the cooldown timer fires. *)
Definition afterDelete : System := step fiveAdmitted (Delete 4).

Definition afterCooldown : System :=
  steps (init 4)
    (admissions fiveJobs
     ++ [Delete 4; Settle "video_1_a" (Ok ["blob:1"%string]); Timer]).

End Scenario.

(** * The page around the queue

    The parts of [App.tsx], [QueueStatus.tsx] and [geminiService.ts] that sit
    between the user and the queue: the API key and the settings kept in
    [localStorage], the preview of the reference image, the status widget and
    the reading of the image file. *)

Module Page.

(** ** The API key and the settings *)

Definition keyName : string := "gemini-api-key".
Definition configName : string := "gemini-video-config".

(** The part of the state of [App] that the storage handlers touch. *)
Record Settings := mkSettings {
  apiKey : string;
  config : VideoConfig;
  syncNotification : option string
}.

(** The [StorageEvent] fields that [handleStorageChange] reads. *)
Record StorageEvent := mkStorageEvent {
  key : option string;
  newValue : option string
}.

(** A string used as a condition. *)
Definition truthy (s : string) : bool := negb (String.eqb s "").

Section Storage.

(** [String.prototype.trim]. *)
Variable trim : string -> string.
(** [JSON.parse] of a stored configuration followed by the spread
    [{ ...prev, ...parsedConfig }]; [None] when [JSON.parse] throws. *)
Variable parseConfig : string -> option (VideoConfig -> VideoConfig).
(** [JSON.stringify] of a configuration. *)
Variable stringify : VideoConfig -> string.

(** [handleApiKeyChange]. [writable] is false when the storage throws. *)
Definition handleApiKeyChange (writable : bool) (key : string)
    (t : Settings) (localStorage : gmap string string)
    : Settings * gmap string string :=
  let trimmedKey := trim key in
  let t' := {| apiKey := key; config := config t;
               syncNotification := syncNotification t |} in
  if writable then
    if truthy trimmedKey then (t', <[ keyName := trimmedKey ]> localStorage)
    else (t', delete keyName localStorage)
  else (t', localStorage).

Definition clearApiKey (writable : bool) (t : Settings)
    (localStorage : gmap string string) : Settings * gmap string string :=
  let t' := {| apiKey := ""; config := config t;
               syncNotification := syncNotification t |} in
  if writable then (t', delete keyName localStorage) else (t', localStorage).

(** [saveConfig(key, value)]: [update] is [{ ...config, [key]: value }]. *)
Definition saveConfig (writable : bool) (update : VideoConfig -> VideoConfig)
    (t : Settings) (localStorage : gmap string string)
    : Settings * gmap string string :=
  let newConfig := update (config t) in
  let t' := {| apiKey := apiKey t; config := newConfig;
               syncNotification := syncNotification t |} in
  if writable then (t', <[ configName := stringify newConfig ]> localStorage)
  else (t', localStorage).

(** The effect run when the component mounts. [readable] is false when the
    storage throws. *)
Definition loadSaved (readable : bool) (t : Settings)
    (localStorage : gmap string string) : Settings :=
  if readable then
    let t1 :=
      match localStorage !! keyName with
      | Some savedKey =>
        if truthy savedKey && truthy (trim savedKey) then
          {| apiKey := trim savedKey; config := config t;
             syncNotification := syncNotification t |}
        else t
      | None => t
      end in
    match localStorage !! configName with
    | Some savedConfig =>
      if truthy savedConfig then
        match parseConfig savedConfig with
        | Some merge =>
          {| apiKey := apiKey t1; config := merge (config t1);
             syncNotification := syncNotification t1 |}
        | None => t1
        end
      else t1
    | None => t1
    end
  else t.

(** [handleStorageChange]: a change made by another tab. *)
Definition handleStorageChange (e : StorageEvent) (t : Settings) : Settings :=
  if bool_decide (key e = Some keyName) then
    match newValue e with
    | Some v =>
      if truthy v && truthy (trim v) then
        {| apiKey := trim v; config := config t;
           syncNotification := Some "API Key synced from another tab" |}
      else
        {| apiKey := ""; config := config t;
           syncNotification := Some "API Key cleared from another tab" |}
    | None =>
      {| apiKey := ""; config := config t;
         syncNotification := Some "API Key cleared from another tab" |}
    end
  else if bool_decide (key e = Some configName) then
    match newValue e with
    | Some v =>
      if truthy v then
        match parseConfig v with
        | Some merge =>
          {| apiKey := apiKey t; config := merge (config t);
             syncNotification := Some "Settings synced from another tab" |}
        | None => t
        end
      else t
    | None => t
    end
  else t.

End Storage.

(** The event that the other tabs receive for a write of [name]. *)
Definition storageEvent (name : string) (localStorage : gmap string string)
    : StorageEvent :=
  {| key := Some name; newValue := localStorage !! name |}.

(** ** The preview of the reference image *)

Record Upload := mkUpload {
  imageFile : option File;
  imagePreview : option string
}.

(** [if (imagePreview) URL.revokeObjectURL(imagePreview)]; [live] is the set
    of the object URLs that are not revoked. *)
Definition revokePreview (u : Upload) (live : gset string) : gset string :=
  match imagePreview u with
  | Some preview => if truthy preview then live ∖ {[ preview ]} else live
  | None => live
  end.

(** [handleImageChange]: [file] is [e.target.files?.[0]] and [created] the
    URL that [URL.createObjectURL(file)] returns. *)
Definition handleImageChange (file : option File) (created : string)
    (u : Upload) (live : gset string) : Upload * gset string :=
  match file with
  | Some f =>
    ({| imageFile := Some f; imagePreview := Some created |},
     {[ created ]} ∪ revokePreview u live)
  | None => (u, live)
  end.

Definition removeImage (u : Upload) (live : gset string) : Upload * gset string :=
  ({| imageFile := None; imagePreview := None |}, revokePreview u live).

Inductive ImageInput :=
| Select (file : option File) (created : string)
| Remove.

Definition imageStep (st : Upload * gset string) (input : ImageInput)
    : Upload * gset string :=
  match input with
  | Select file created => handleImageChange file created st.1 st.2
  | Remove => removeImage st.1 st.2
  end.

Definition created (input : ImageInput) : option string :=
  match input with
  | Select (Some _) url => Some url
  | _ => None
  end.

(** The object URL of the preview shown, as a set. *)
Definition previewSet (u : Upload) : gset string :=
  match imagePreview u with
  | Some preview => {[ preview ]}
  | None => ∅
  end.

(** ** The status widget *)


(** ** The reading of the image file *)

(** [s.split(',')]: the first piece and the following ones. *)
Fixpoint splitComma (s : string) : string * list string :=
  match s with
  | EmptyString => (EmptyString, [])
  | String c s' =>
    let (piece, pieces) := splitComma s' in
    if Ascii.eqb c ","%char then (EmptyString, piece :: pieces)
    else (String c piece, pieces)
  end.

(** [(reader.result as string).split(',')[1]]: what [fileToBase64] resolves
    with; [None] is [undefined]. *)
Definition base64Part (result : string) : option string :=
  (splitComma result).2 !! 0%nat.

Fixpoint commaFree (s : string) : bool :=
  match s with
  | EmptyString => true
  | String c s' => negb (Ascii.eqb c ","%char) && commaFree s'
  end.

End Page.

(** More concrete environments and histories of the page. *)
Module Cases.

Import VideoQueue Scenario.


(** An operation that meets one 503 and is refused afterwards. *)
Definition flakyThenDenied : nat -> Outcome string * nat :=
  fun calls =>
    if (calls <? 1)%nat then (Throw unavailable, S calls)
    else (Throw forbidden, S calls).


(** A service that refuses every submission with a 403. *)
Definition refuse : string -> Payload -> nat -> Outcome Operation * nat :=
  fun _ _ polls => (Throw forbidden, polls).

Definition readFile : File -> nat -> Outcome string * nat :=
  fun _ polls => (Ok ""%string, polls).

(** A file that cannot be read. *)
Definition unreadable : File -> nat -> Outcome string * nat :=
  fun _ polls => (Throw (newError "The file could not be read"), polls).

Definition picture : File := {| fileType := "image/png"; fileContent := "png" |}.

(** Two videos without a download link. *)
Definition noLinks : list VideoData :=
  [ {| uri := None |}; {| uri := Some ""%string |} ].

Definition threeJobs : list (string * Request) :=
  [ ("video_1_a"%string, sample); ("video_2_b"%string, sample);
    ("video_3_c"%string, sample) ].

(** The fifth job is deleted on the page; later its run and the others go on. *)
Definition afterwards : list Input :=
  [ Settle "video_1_a" (Ok ["blob:1"%string]); Timer;
    Settle "video_5_e" (Ok ["blob:5"%string]); Generate "video_6_f" sample ].

(** Removal of the spaces at both ends. *)
Fixpoint dropSpaces (s : string) : string :=
  match s with
  | String c s' => if Ascii.eqb c " "%char then dropSpaces s' else s
  | EmptyString => EmptyString
  end.

Definition trimSpaces (s : string) : string :=
  String.rev (dropSpaces (String.rev (dropSpaces s))).

Definition noSettings : Page.Settings :=
  {| Page.apiKey := ""; Page.config := veo; Page.syncNotification := None |}.

(** Two pictures are selected one after the other, the second is removed, and
    a selection is cancelled. *)
Definition selections : list Page.ImageInput :=
  [ Page.Select (Some picture) "blob:1"; Page.Select (Some picture) "blob:2";
    Page.Remove; Page.Select None "blob:3" ].

End Cases.

(** * Properties of the retrier *)

Section RetrierFacts.

Context {World : Type}.
Context {T : Type}.
Variable op : World -> Outcome T * World.
Variable c : Remote.

Lemma isCall_refl : isCall c (Call c) = true.
Proof. destruct c; simpl; auto using Nat.eqb_refl. Qed.

Lemma attempts_app (l1 l2 : list Event) :
  attempts c (l1 ++ l2) = (attempts c l1 + attempts c l2)%nat.
Proof. unfold attempts. by rewrite filter_app, length_app. Qed.

Lemma attempts_call : attempts c [Call c] = 1%nat.
Proof.
  unfold attempts. rewrite filter_cons_True by apply isCall_refl. done.
Qed.

Lemma attempts_retryEvents maxRetries baseDelay attempt k :
  attempts c (retryEvents c maxRetries baseDelay attempt k) = k.
Proof.
  revert attempt. induction k as [|k IH]; intros attempt; [done|].
  simpl. unfold attempts in *.
  rewrite filter_cons_True by apply isCall_refl.
  rewrite filter_cons_False by (simpl; destruct c; discriminate).
  rewrite filter_cons_False by (simpl; destruct c; discriminate).
  simpl. by rewrite IH.
Qed.

Lemma sleeps_app (l1 l2 : list Event) : sleeps (l1 ++ l2) = sleeps l1 ++ sleeps l2.
Proof.
  induction l1 as [|ev l1 IH]; [done|].
  destruct ev; simpl; by rewrite IH.
Qed.

Lemma sleeps_retryEvents maxRetries baseDelay attempt k :
  sleeps (retryEvents c maxRetries baseDelay attempt k)
  = map (fun i => (baseDelay * pow (3 # 2) i)%Q) (seq attempt k).
Proof.
  revert attempt. induction k as [|k IH]; intros attempt; [done|].
  simpl. by rewrite IH.
Qed.

Lemma pow_pos (b : Q) (n : nat) : (0 < b)%Q -> (0 < pow b n)%Q.
Proof.
  intros Hb. induction n as [|n IH]; simpl; [reflexivity|].
  apply Qmult_lt_0_compat; assumption.
Qed.

Lemma retryDelay_increasing (baseDelay : Q) (i : nat) :
  (0 < baseDelay)%Q ->
  (baseDelay * pow (3 # 2) i < baseDelay * pow (3 # 2) (S i))%Q.
Proof.
  intros Hb. simpl.
  assert (Hp : (0 < pow (3 # 2) i)%Q) by (apply pow_pos; reflexivity).
  apply Qmult_lt_l; [assumption|].
  generalize dependent (pow (3 # 2) i). intros p Hp. lra.
Qed.

Lemma remote_run {A} (k : Remote) (f : World -> Outcome A * World) (st : St)
    (r : Outcome A) (w' : World) :
  f (world st) = (r, w') ->
  remote k f st = (r, {| world := w'; log := log st ++ [Call k] |}).
Proof. intros H. unfold remote. by rewrite H. Qed.

(** The loop succeeds at the first attempt that succeeds. *)
Lemma retryLoop_succeeds (maxRetries : nat) (baseDelay : Q) (es : list JsError) :
  forall (todo attempt : nat) (lastError : option JsError) (st : St)
         (w1 w2 : World) (v : T),
    failing op es (world st) w1 ->
    op w1 = (Ok v, w2) ->
    (length es < todo)%nat ->
    (attempt + length es <= maxRetries)%nat ->
    retryLoop (remote c op) maxRetries baseDelay todo attempt lastError st
    = (Ok v, {| world := w2;
                log := log st ++ retryEvents c maxRetries baseDelay attempt (length es)
                       ++ [Call c] |}).
Proof.
  induction es as [|e es IH]; intros todo attempt lastError st w1 w2 v Hf Hok Htodo Hle.
  - simpl in Hf. subst w1. destruct todo as [|todo]; [simpl in Htodo; lia|].
    simpl. simpl in Hle.
    destruct (Nat.leb_spec attempt maxRetries) as [_|Hgt]; [|lia].
    unfold tryCatch. by rewrite (remote_run _ _ _ _ _ Hok).
  - destruct Hf as (w' & Hop & Hretry & Hf).
    destruct todo as [|todo]; [simpl in Htodo; lia|].
    simpl in Htodo, Hle. simpl.
    destruct (Nat.leb_spec attempt maxRetries) as [_|Hgt]; [|lia].
    unfold tryCatch at 1. rewrite (remote_run _ _ _ _ _ Hop), Hretry.
    destruct (Nat.eqb_spec attempt maxRetries) as [Heq|_]; [lia|].
    unfold bind, onProgress, sleep, emit. simpl.
    rewrite (IH todo (S attempt) (Some e) _ w1 w2 v); simpl; try done; try lia.
    do 2 f_equal. rewrite <- !app_assoc. reflexivity.
Qed.

(** The loop gives up with the error of the last permitted attempt. *)
Lemma retryLoop_exhausted (maxRetries : nat) (baseDelay : Q) (es : list JsError) :
  forall (todo attempt : nat) (lastError : option JsError) (st : St)
         (e : JsError) (w1 w2 : World),
    failing op es (world st) w1 ->
    op w1 = (Throw e, w2) ->
    (length es < todo)%nat ->
    (attempt + length es)%nat = maxRetries ->
    retryLoop (remote c op) maxRetries baseDelay todo attempt lastError st
    = (Throw e, {| world := w2;
                   log := log st ++ retryEvents c maxRetries baseDelay attempt (length es)
                          ++ [Call c] |}).
Proof.
  induction es as [|e0 es IH]; intros todo attempt lastError st e w1 w2 Hf Hop Htodo Hle.
  - simpl in Hf. subst w1. destruct todo as [|todo]; [simpl in Htodo; lia|].
    simpl. simpl in Hle.
    destruct (Nat.leb_spec attempt maxRetries) as [_|Hgt]; [|lia].
    unfold tryCatch. rewrite (remote_run _ _ _ _ _ Hop).
    destruct (nonRetryable e); [done|].
    destruct (Nat.eqb_spec attempt maxRetries) as [_|Hne]; [done|lia].
  - destruct Hf as (w' & Hop0 & Hretry & Hf).
    destruct todo as [|todo]; [simpl in Htodo; lia|].
    simpl in Htodo, Hle. simpl.
    destruct (Nat.leb_spec attempt maxRetries) as [_|Hgt]; [|lia].
    unfold tryCatch at 1. rewrite (remote_run _ _ _ _ _ Hop0), Hretry.
    destruct (Nat.eqb_spec attempt maxRetries) as [Heq|_]; [lia|].
    unfold bind, onProgress, sleep, emit. simpl.
    rewrite (IH todo (S attempt) (Some e0) _ e w1 w2); simpl; try done; try lia.
    do 2 f_equal. rewrite <- !app_assoc. reflexivity.
Qed.

(** Whatever the retrier returns or throws was returned or thrown by an
    attempt. *)
Lemma retryLoop_outcome (P : Outcome T -> Prop) (maxRetries : nat) (baseDelay : Q) :
  (forall w, P (op w).1) ->
  forall (todo attempt : nat) (lastError : option JsError) (st : St),
    match lastError with
    | Some e => P (Throw e)
    | None => (0 < todo)%nat /\ (attempt <= maxRetries)%nat
    end ->
    P (retryLoop (remote c op) maxRetries baseDelay todo attempt lastError st).1.
Proof.
  intros HP. induction todo as [|todo IH]; intros attempt lastError st Hlast.
  - destruct lastError; [exact Hlast|]. destruct Hlast; lia.
  - simpl. destruct (Nat.leb_spec attempt maxRetries) as [Hle|Hgt].
    + unfold tryCatch. specialize (HP (world st)).
      destruct (op (world st)) as [[v|e] w'] eqn:Hop;
        rewrite (remote_run c op st _ _ Hop); simpl in HP; [exact HP|].
      destruct (nonRetryable e); [exact HP|].
      destruct (attempt =? maxRetries)%nat; [exact HP|].
      unfold bind, onProgress, sleep, emit. apply IH. exact HP.
    + destruct lastError; [exact Hlast|]. destruct Hlast; lia.
Qed.

(** The retrier only adds calls, its own notices and waits to the log. *)
Lemma retryLoop_log (maxRetries : nat) (baseDelay : Q) :
  forall (todo attempt : nat) (lastError : option JsError) (st : St),
    exists new,
      log (retryLoop (remote c op) maxRetries baseDelay todo attempt lastError st).2
      = log st ++ new
      /\ stageMessages new = [].
Proof.
  induction todo as [|todo IH]; intros attempt lastError st.
  - exists []. simpl. destruct lastError; simpl; by rewrite app_nil_r.
  - simpl. destruct (attempt <=? maxRetries)%nat.
    + unfold tryCatch.
      destruct (op (world st)) as [[v|e] w'] eqn:Hop;
        rewrite (remote_run c op st _ _ Hop); simpl.
      { exists [Call c]. done. }
      destruct (nonRetryable e); [exists [Call c]; done|].
      destruct (attempt =? maxRetries)%nat; [exists [Call c]; done|].
      unfold bind, onProgress, sleep, emit. simpl.
      destruct (IH (S attempt) (Some e)
                  {| world := w';
                     log := ((log st ++ [Call c])
                             ++ [Progress (retryMessage attempt maxRetries
                                             (retryDelay baseDelay attempt))])
                            ++ [Sleep (retryDelay baseDelay attempt)] |})
        as (new & Hlog & Hstage).
      exists (Call c
              :: Progress (retryMessage attempt maxRetries (retryDelay baseDelay attempt))
              :: Sleep (retryDelay baseDelay attempt) :: new).
      split.
      * rewrite Hlog. simpl. rewrite <- !app_assoc. reflexivity.
      * simpl. rewrite Hstage. reflexivity.
    + exists []. destruct lastError; simpl; by rewrite app_nil_r.
Qed.

Lemma nonRetryable_status (e : JsError) :
  status e = Some 400%Z \/ status e = Some 401%Z \/ status e = Some 403%Z ->
  nonRetryable e = true.
Proof.
  unfold nonRetryable. intros [H | [H | H]]; rewrite H; reflexivity.
Qed.

(** C5. When the first attempt of an operation fails with status 400, 401 or
    403, the retrier throws that same error at once: the operation is invoked
    exactly once, and no notice or wait is recorded. *)
Theorem retry_non_retryable_single_attempt (maxRetries : nat) (baseDelay : Q)
    (st : St) (e : JsError) (w' : World) :
  op (world st) = (Throw e, w') ->
  status e = Some 400%Z \/ status e = Some 401%Z \/ status e = Some 403%Z ->
  exists st',
    retryWithBackoff (remote c op) maxRetries baseDelay st = (Throw e, st')
    /\ world st' = w'
    /\ log st' = log st ++ [Call c]
    /\ attempts c (log st') = S (attempts c (log st)).
Proof.
  intros Hop Hstatus. apply nonRetryable_status in Hstatus.
  exists {| world := w'; log := log st ++ [Call c] |}.
  split; [|split; [reflexivity|split; [reflexivity|]]].
  - unfold retryWithBackoff. simpl. unfold tryCatch.
    rewrite (remote_run _ _ _ _ _ Hop), Hstatus. reflexivity.
  - simpl. rewrite attempts_app, attempts_call. lia.
Qed.

(** C6. An operation that fails [k] times with retryable errors,
    [k < maxRetries + 1], and then succeeds is invoked exactly [k + 1] times;
    the wait before retry [i] (from 0) is [baseDelay * 1.5 ^ i], so with a
    positive base delay each wait is longer than the one before. An operation
    whose [maxRetries + 1] permitted attempts all fail makes the retrier
    throw the error of the last attempt, unchanged. *)
Theorem retry_transient_backoff (maxRetries : nat) (baseDelay : Q) (st : St) :
  (forall (es : list JsError) (w1 w2 : World) (v : T),
     failing op es (world st) w1 ->
     op w1 = (Ok v, w2) ->
     (length es < S maxRetries)%nat ->
     exists st' new,
       retryWithBackoff (remote c op) maxRetries baseDelay st = (Ok v, st')
       /\ world st' = w2
       /\ log st' = log st ++ new
       /\ attempts c new = S (length es)
       /\ sleeps new
          = map (fun i => (baseDelay * pow (3 # 2) i)%Q) (seq 0 (length es))
       /\ ((0 < baseDelay)%Q ->
           forall (i : nat) (d d' : Q),
             sleeps new !! i = Some d -> sleeps new !! S i = Some d' ->
             (d < d')%Q))
  /\
  (forall (es : list JsError) (e : JsError) (w1 w2 : World),
     failing op es (world st) w1 ->
     op w1 = (Throw e, w2) ->
     length es = maxRetries ->
     exists st' new,
       retryWithBackoff (remote c op) maxRetries baseDelay st = (Throw e, st')
       /\ world st' = w2
       /\ log st' = log st ++ new
       /\ attempts c new = S maxRetries).
Proof.
  split.
  - intros es w1 w2 v Hf Hok Hk.
    exists {| world := w2;
              log := log st ++ retryEvents c maxRetries baseDelay 0 (length es)
                     ++ [Call c] |}.
    exists (retryEvents c maxRetries baseDelay 0 (length es) ++ [Call c]).
    split; [|split; [reflexivity|split; [reflexivity|]]].
    + unfold retryWithBackoff.
      apply (retryLoop_succeeds maxRetries baseDelay es _ _ _ _ w1); auto; lia.
    + assert (Hs : sleeps (retryEvents c maxRetries baseDelay 0 (length es) ++ [Call c])
                   = map (fun i => (baseDelay * pow (3 # 2) i)%Q) (seq 0 (length es))).
      { rewrite sleeps_app, sleeps_retryEvents. simpl. apply app_nil_r. }
      split; [|split; [exact Hs|]].
      * rewrite attempts_app, attempts_retryEvents, attempts_call. lia.
      * intros Hb i d d'. rewrite Hs.
        change (map ?f ?l) with (f <$> l). rewrite !list_lookup_fmap.
        intros Hd Hd'.
        destruct (seq 0 (length es) !! i) as [a|] eqn:Ha; [|discriminate].
        destruct (seq 0 (length es) !! S i) as [b|] eqn:Hb'; [|discriminate].
        apply lookup_seq in Ha as [-> _]. apply lookup_seq in Hb' as [-> _].
        simpl in Hd, Hd'. injection Hd as <-. injection Hd' as <-.
        apply (retryDelay_increasing baseDelay i Hb).
  - intros es e w1 w2 Hf Hop Hk.
    exists {| world := w2;
              log := log st ++ retryEvents c maxRetries baseDelay 0 (length es)
                     ++ [Call c] |}.
    exists (retryEvents c maxRetries baseDelay 0 (length es) ++ [Call c]).
    split; [|split; [reflexivity|split; [reflexivity|]]].
    + unfold retryWithBackoff.
      apply (retryLoop_exhausted maxRetries baseDelay es _ _ _ _ _ w1); auto; lia.
    + rewrite attempts_app, attempts_retryEvents, attempts_call. lia.
Qed.

End RetrierFacts.

(** * Properties of the task executor *)

Section ExecutorFacts.

Context {World : Type}.
Variable fileToBase64 : File -> World -> Outcome string * World.
Variable generateVideos : string -> Payload -> World -> Outcome Operation * World.
Variable getVideosOperation : string -> Operation -> World -> Outcome Operation * World.
Variable fetch : nat -> string -> World -> Outcome Response * World.
Variable createObjectURL : string -> string.
Variable settleOrder : World -> list nat.

Local Abbreviation submit := (submitStage fileToBase64 generateVideos).
Local Abbreviation polling := (pollStage getVideosOperation).
Local Abbreviation iteration := (pollIteration getVideosOperation).
Local Abbreviation complete := (completeStage fetch createObjectURL settleOrder).
Local Abbreviation execute :=
  (executeGeneration fileToBase64 generateVideos getVideosOperation fetch
     createObjectURL settleOrder).

Lemma stageMessages_app (l1 l2 : list Event) :
  stageMessages (l1 ++ l2) = stageMessages l1 ++ stageMessages l2.
Proof.
  induction l1 as [|ev l1 IH]; [done|].
  destruct ev; simpl; try exact IH.
  destruct (bool_decide _); simpl; by rewrite IH.
Qed.

Lemma stageMessage_run (i : nat) (st : St (World:=World)) :
  exists st1,
    stageMessage i st
    = (Ok (if (i <? 5)%nat then S i else i), st1)
    /\ world st1 = world st
    /\ log st1 = log st ++ (if (i <? 5)%nat
                            then [Progress (nth i progressMessages ""%string)]
                            else []).
Proof.
  unfold stageMessage. change (length progressMessages) with 5%nat.
  destruct (i <? 5)%nat.
  - eexists. split; [reflexivity|]. done.
  - exists st. split; [reflexivity|]. by rewrite app_nil_r.
Qed.

Lemma stage_of_index (i : nat) :
  (i < 5)%nat ->
  stageMessages [Progress (nth i progressMessages ""%string)]
  = [nth i progressMessages ""%string].
Proof.
  intros Hi. do 5 (destruct i as [|i]; [reflexivity|]). lia.
Qed.

(** The refresh of an iteration records no stage message. *)
Lemma refresh_log (apiKey : string) (operation : Operation) (n : nat)
    (st : St (World:=World)) :
  exists new,
    log (refresh getVideosOperation apiKey operation n st).2 = log st ++ new
    /\ stageMessages new = [].
Proof.
  unfold refresh, tryCatch, retryWithBackoff.
  destruct (retryLoop_log (getVideosOperation apiKey operation) Poll 5 3000 6 0 None st)
    as (new & Hlog & Hstage).
  destruct (retryLoop _ _ _ _ _ _ st) as [[op'|e] st1]; simpl in Hlog.
  - exists new. done.
  - unfold bind, console, onProgress, sleep, emit. simpl.
    destruct (is503 e); simpl.
    + eexists. rewrite Hlog, <- !app_assoc. split; [reflexivity|].
      rewrite stageMessages_app, Hstage. reflexivity.
    + destruct (negb (statusIs 503 (status e)) && negb (statusIs 503 (code e)));
        simpl; eexists; rewrite Hlog, <- !app_assoc;
        (split; [reflexivity|]); rewrite stageMessages_app, Hstage; reflexivity.
Qed.

Lemma pollIteration_counter (apiKey : string) (ls ls' : Loop)
    (st st' : St (World:=World)) :
  iteration apiKey ls st = (Ok ls', st') ->
  pollAttempts ls' = S (pollAttempts ls)
  /\ messageIndex ls'
     = (if (messageIndex ls <? 5)%nat then S (messageIndex ls) else messageIndex ls).
Proof.
  unfold pollIteration, bind, sleep, emit.
  destruct (stageMessage_run (messageIndex ls)
              {| world := world st; log := log st ++ [Sleep 15000] |})
    as (st1 & -> & _ & _).
  destruct (refresh _ _ _ _ st1) as [[op'|e] st2]; [|discriminate].
  intros [= <- _]. done.
Qed.

(** On leaving the loop its guard is false. *)
Lemma pollLoop_exit (apiKey : string) (todo : nat) :
  forall (ls ls' : Loop) (st st' : St (World:=World)),
    pollLoop getVideosOperation apiKey todo ls st = (Ok ls', st') ->
    (maxPollAttempts <= pollAttempts ls + todo)%nat ->
    done (operation ls') = true \/ (maxPollAttempts <= pollAttempts ls')%nat.
Proof.
  induction todo as [|todo IH]; intros ls ls' st st' Hrun Hfuel.
  - injection Hrun as <- _. right. lia.
  - simpl in Hrun. destruct (done (operation ls)) eqn:Hdone; simpl in Hrun.
    { injection Hrun as <- _. by left. }
    destruct (Nat.ltb_spec (pollAttempts ls) maxPollAttempts) as [Hlt|Hge].
    + unfold bind in Hrun.
      destruct (iteration apiKey ls st) as [[ls1|e] st1] eqn:Hiter; [|discriminate].
      apply pollIteration_counter in Hiter as [Hcount _].
      apply (IH _ _ _ _ Hrun). lia.
    + injection Hrun as <- _. by right.
Qed.

Section NeverDone.

(** The service answers every status request with "not done", or fails it
    with a 503. *)
Hypothesis never_done :
  forall (apiKey : string) (operation : Operation) (w : World),
    match (getVideosOperation apiKey operation w).1 with
    | Ok operation' => done operation' = false
    | Throw e => is503 e = true
    end.

Lemma refresh_continues (apiKey : string) (operation : Operation) (n : nat)
    (st : St (World:=World)) :
  done operation = false ->
  exists operation' st',
    refresh getVideosOperation apiKey operation n st = (Ok operation', st')
    /\ done operation' = false.
Proof.
  intros Hdone. unfold refresh, tryCatch, retryWithBackoff.
  pose proof (retryLoop_outcome (getVideosOperation apiKey operation) Poll
                (fun r => match r with
                          | Ok operation' => done operation' = false
                          | Throw e => is503 e = true
                          end)
                5 3000 (never_done apiKey operation) 6 0 None st) as Hout.
  destruct (retryLoop _ _ _ _ _ _ st) as [[op'|e] st1]; simpl in Hout.
  - exists op', st1. split; [reflexivity|]. apply Hout. lia.
  - unfold bind, console, onProgress, sleep, emit. simpl.
    rewrite Hout by lia. eexists _, _. split; [reflexivity|exact Hdone].
Qed.

Lemma pollIteration_continues (apiKey : string) (ls : Loop) (st : St (World:=World)) :
  done (operation ls) = false ->
  exists ls' st',
    iteration apiKey ls st = (Ok ls', st')
    /\ done (operation ls') = false
    /\ pollAttempts ls' = S (pollAttempts ls).
Proof.
  intros Hdone. unfold pollIteration, bind, sleep, emit.
  destruct (stageMessage_run (messageIndex ls)
              {| world := world st; log := log st ++ [Sleep 15000] |})
    as (st1 & -> & _ & _).
  destruct (refresh_continues apiKey (operation ls) (S (pollAttempts ls)) st1 Hdone)
    as (op' & st2 & -> & Hdone').
  eexists _, _. split; [reflexivity|]. done.
Qed.

Lemma pollLoop_reaches_cap (apiKey : string) (todo : nat) :
  forall (ls : Loop) (st : St (World:=World)),
    done (operation ls) = false ->
    (pollAttempts ls + todo)%nat = maxPollAttempts ->
    exists ls' st',
      pollLoop getVideosOperation apiKey todo ls st = (Ok ls', st')
      /\ pollAttempts ls' = maxPollAttempts
      /\ done (operation ls') = false.
Proof.
  induction todo as [|todo IH]; intros ls st Hdone Hfuel.
  - exists ls, st. split; [reflexivity|]. split; [lia|done].
  - simpl. rewrite Hdone. simpl.
    destruct (Nat.ltb_spec (pollAttempts ls) maxPollAttempts) as [_|Hge]; [|lia].
    unfold bind.
    destruct (pollIteration_continues apiKey ls st Hdone)
      as (ls1 & st1 & -> & Hdone1 & Hcount).
    apply IH; [exact Hdone1|lia].
Qed.

End NeverDone.

(** A rejected promise rejects [Promise.all], whatever the order in which the
    promises settle. *)
Lemma promiseAll_rejects {A} (tasks : list (M A)) (st : St (World:=World)) (e : JsError) :
  Throw e ∈ (settleAll tasks st).1 ->
  exists e' st', promiseAll settleOrder tasks st = (Throw e', st').
Proof.
  intros Hin. unfold promiseAll.
  destruct (settleAll tasks st) as [rs st1]. simpl in Hin.
  assert (Hnone : fulfilled rs = None).
  { induction rs as [|r rs IH]; [by apply elem_of_nil in Hin|].
    apply elem_of_cons in Hin as [<-|Hin]; [reflexivity|].
    simpl. destruct r; [|reflexivity]. by rewrite IH. }
  rewrite Hnone. destruct (firstRejection _ rs); eauto.
Qed.

(** An error thrown after polling reaches the caller through the outer
    [catch]. *)
Lemma execute_throws (apiKey prompt : string) (imageFile : option File)
    (config : VideoConfig) (numberOfVideos : nat) (st st1 st2 st3 : St (World:=World))
    (submitted : Operation) (ls : Loop) (e : JsError) :
  submit apiKey prompt imageFile config numberOfVideos st = (Ok submitted, st1) ->
  polling apiKey submitted st1 = (Ok ls, st2) ->
  complete apiKey ls st2 = (Throw e, st3) ->
  execute apiKey prompt imageFile config numberOfVideos st
  = (Throw (explain e),
     {| world := world st3;
        log := log st3 ++ [Console ("Video generation error: " +:+ showMessage e)] |}).
Proof.
  intros Hsubmit Hpoll Hcomplete.
  unfold executeGeneration, tryCatch, bind.
  rewrite Hsubmit, Hpoll, Hcomplete. reflexivity.
Qed.

Lemma explain_timeout : explain (newError timeoutMessage) = newError timeoutMessage.
Proof. reflexivity. Qed.

Lemma explain_noVideos : explain (newError noVideosMessage) = newError noVideosMessage.
Proof. reflexivity. Qed.

Lemma explain_503 (e : JsError) :
  is503 e = true -> explain e = newError unavailableMessage.
Proof. intros H. unfold explain. by rewrite H. Qed.

(** C2. When the submitted operation is not done and the service answers
    every status request with "not done" (or fails it with a 503), the
    polling loop ends after exactly 100 iterations and the job is rejected
    with the timeout error; that error differs from the one handed to the
    caller for an unavailable service (a 503). *)
Theorem poll_cap_timeout (apiKey prompt : string) (imageFile : option File)
    (config : VideoConfig) (numberOfVideos : nat) (st st1 : St (World:=World))
    (submitted : Operation) :
  (forall (k : string) (o : Operation) (w : World),
     match (getVideosOperation k o w).1 with
     | Ok o' => done o' = false
     | Throw e => is503 e = true
     end) ->
  submit apiKey prompt imageFile config numberOfVideos st = (Ok submitted, st1) ->
  done submitted = false ->
  exists (ls : Loop) (st2 st3 : St),
    polling apiKey submitted st1 = (Ok ls, st2)
    /\ pollAttempts ls = 100%nat
    /\ execute apiKey prompt imageFile config numberOfVideos st
       = (Throw (newError timeoutMessage), st3)
    /\ forall e, is503 e = true ->
         explain e = newError unavailableMessage
         /\ newError unavailableMessage <> newError timeoutMessage.
Proof.
  intros Hnever Hsubmit Hdone.
  destruct (pollLoop_reaches_cap Hnever apiKey maxPollAttempts
              {| operation := submitted; pollAttempts := 0; messageIndex := 1 |}
              {| world := world st1;
                 log := log st1 ++ [Progress (nth 0 progressMessages ""%string)] |}
              Hdone eq_refl)
    as (ls & st2 & Hloop & Hcap & _).
  assert (Hpoll : polling apiKey submitted st1 = (Ok ls, st2)).
  { unfold pollStage, bind, onProgress, emit. exact Hloop. }
  exists ls, st2. eexists. split; [exact Hpoll|]. split; [exact Hcap|]. split.
  - rewrite <- explain_timeout at 1.
    apply (execute_throws _ _ _ _ _ _ _ _ st2 _ _ _ Hsubmit Hpoll).
    unfold completeStage. rewrite Hcap. reflexivity.
  - intros e He. split; [by apply explain_503|discriminate].
Qed.

(** C9. When polling ends below the cap of 100 iterations and the operation
    carries no list of videos or an empty one, the operation is done and the
    job is rejected with the no-videos error, which differs from the timeout
    error. *)
Theorem empty_result_failure (apiKey prompt : string) (imageFile : option File)
    (config : VideoConfig) (numberOfVideos : nat) (st st1 st2 : St (World:=World))
    (submitted : Operation) (ls : Loop) :
  submit apiKey prompt imageFile config numberOfVideos st = (Ok submitted, st1) ->
  polling apiKey submitted st1 = (Ok ls, st2) ->
  (pollAttempts ls < maxPollAttempts)%nat ->
  generatedVideos (operation ls) = None
  \/ generatedVideos (operation ls) = Some [] ->
  done (operation ls) = true
  /\ (exists st3 : St,
        execute apiKey prompt imageFile config numberOfVideos st
        = (Throw (newError noVideosMessage), st3))
  /\ newError noVideosMessage <> newError timeoutMessage.
Proof.
  intros Hsubmit Hpoll Hcap Hempty. split; [|split; [|discriminate]].
  - unfold pollStage, bind, onProgress, emit in Hpoll.
    apply pollLoop_exit in Hpoll as [Hdone|Hge]; [exact Hdone| |simpl; lia].
    lia.
  - eexists. rewrite <- explain_noVideos at 1.
    apply (execute_throws _ _ _ _ _ _ _ _ st2 _ _ _ Hsubmit Hpoll).
    unfold completeStage.
    destruct (Nat.leb_spec maxPollAttempts (pollAttempts ls)) as [Hge|_]; [lia|].
    destruct Hempty as [-> | ->]; reflexivity.
Qed.

(** C10. When polling ends with the counter at the cap of 100 in the very
    iteration in which the operation became done, the job is rejected with
    the timeout error although the operation is done and carries videos: the
    test after the loop looks at the counter only. *)
Theorem done_at_cap_times_out (apiKey prompt : string) (imageFile : option File)
    (config : VideoConfig) (numberOfVideos : nat) (st st1 st2 : St (World:=World))
    (submitted : Operation) (ls : Loop) (video : VideoData) (videos : list VideoData) :
  submit apiKey prompt imageFile config numberOfVideos st = (Ok submitted, st1) ->
  polling apiKey submitted st1 = (Ok ls, st2) ->
  pollAttempts ls = maxPollAttempts ->
  done (operation ls) = true ->
  generatedVideos (operation ls) = Some (video :: videos) ->
  exists st3 : St,
    execute apiKey prompt imageFile config numberOfVideos st
    = (Throw (newError timeoutMessage), st3).
Proof.
  intros Hsubmit Hpoll Hcap _ _.
  eexists. rewrite <- explain_timeout at 1.
  apply (execute_throws _ _ _ _ _ _ _ _ st2 _ _ _ Hsubmit Hpoll).
  unfold completeStage. rewrite Hcap. reflexivity.
Qed.

(** C7 (as the code has it). Each iteration of the polling loop, before its
    status request and whatever the outcome of that request, emits the next
    message of [progressMessages] while one is left, and no stage message at
    all once the five messages are used up: nothing is repeated. *)
Theorem stage_message_per_iteration (apiKey : string) (ls : Loop)
    (st : St (World:=World)) :
  exists new : list Event,
    log (iteration apiKey ls st).2 = log st ++ new
    /\ stageMessages new
       = (if (messageIndex ls <? 5)%nat
          then [nth (messageIndex ls) progressMessages ""%string]
          else [])
    /\ forall ls' st',
         iteration apiKey ls st = (Ok ls', st') ->
         messageIndex ls'
         = (if (messageIndex ls <? 5)%nat then S (messageIndex ls)
            else messageIndex ls).
Proof.
  unfold pollIteration at 1, bind, sleep, emit.
  destruct (stageMessage_run (messageIndex ls)
              {| world := world st; log := log st ++ [Sleep 15000] |})
    as (st1 & -> & _ & Hlog1).
  destruct (refresh_log apiKey (operation ls) (S (pollAttempts ls)) st1)
    as (new & Hlog & Hstage).
  simpl in Hlog1.
  exists (Sleep 15000
          :: (if (messageIndex ls <? 5)%nat
              then [Progress (nth (messageIndex ls) progressMessages ""%string)]
              else [])
          ++ new).
  split; [|split].
  - destruct (refresh _ _ _ _ st1) as [[op'|e] st2]; simpl in *;
      rewrite Hlog, Hlog1, <- !app_assoc; reflexivity.
  - simpl. rewrite stageMessages_app, Hstage, app_nil_r.
    destruct (Nat.ltb_spec (messageIndex ls) 5) as [Hlt|_]; [|reflexivity].
    by apply stage_of_index.
  - intros ls' st' Hiter. by apply pollIteration_counter in Hiter as [_ ?].
Qed.

End ExecutorFacts.

(** * Properties of the scheduler *)

Section SchedulerFacts.

Import VideoQueue.

(** What one call of [processQueue] does: nothing, or the start of the head
    of the queue. *)
Lemma processQueue_spec (s : System) :
  ((maxConcurrent s <= size (running s))%nat \/ queue s = []) /\ processQueue s = s
  \/ exists item rest,
       queue s = item :: rest
       /\ (size (running s) < maxConcurrent s)%nat
       /\ queue (processQueue s) = rest
       /\ running (processQueue s) = {[ id item ]} ∪ running s
       /\ maxConcurrent (processQueue s) = maxConcurrent s
       /\ admitted (processQueue s) = admitted s
       /\ started (processQueue s) = started s ++ [id item]
       /\ executing (processQueue s) = executing s ++ [item]
       /\ timers (processQueue s) = timers s.
Proof.
  unfold processQueue.
  destruct (Nat.leb_spec (maxConcurrent s) (size (running s))) as [Hfull|Hfree]; simpl.
  { left. split; [by left|reflexivity]. }
  destruct (queue s) as [|item rest] eqn:Hq; simpl.
  { left. split; [by right|reflexivity]. }
  right. exists item, rest. repeat split; done.
Qed.

Lemma steps_snoc (s : System) (inputs : list Input) (input : Input) :
  steps s (inputs ++ [input]) = step (steps s inputs) input.
Proof. unfold steps. apply foldl_snoc. Qed.

(** ** The concurrency limit *)

Lemma processQueue_maxConcurrent (s : System) :
  maxConcurrent (processQueue s) = maxConcurrent s.
Proof.
  destruct (processQueue_spec s) as [[_ ->]|(item & rest & _ & _ & _ & _ & Hmax & _)];
    [reflexivity|exact Hmax].
Qed.

Lemma processQueue_bounded (s : System) :
  (size (running s) <= maxConcurrent s)%nat ->
  (size (running (processQueue s)) <= maxConcurrent (processQueue s))%nat.
Proof.
  intros Hs.
  destruct (processQueue_spec s)
    as [[_ ->]|(item & rest & _ & Hfree & _ & -> & -> & _)]; [done|].
  rewrite size_union_alt, size_singleton.
  assert (Hsub : (size (running s ∖ {[id item]}) <= size (running s))%nat)
    by (apply subseteq_size, subseteq_difference_l; reflexivity).
  lia.
Qed.

Lemma step_maxConcurrent (s : System) (input : Input) :
  maxConcurrent (step s input) = maxConcurrent s.
Proof.
  destruct input as [newId request|i result| |j]; simpl.
  - unfold handleGenerate, add. by rewrite processQueue_maxConcurrent.
  - unfold settle. destruct (takeItem i (executing s)) as [[item others]|]; [|done].
    destruct result; done.
  - unfold fire. destruct (timers s); [done|]. by rewrite processQueue_maxConcurrent.
  - done.
Qed.

Lemma step_bounded (s : System) (input : Input) :
  (size (running s) <= maxConcurrent s)%nat ->
  (size (running (step s input)) <= maxConcurrent (step s input))%nat.
Proof.
  intros Hs. destruct input as [newId request|i result| |j]; simpl.
  - unfold handleGenerate, add. by apply processQueue_bounded.
  - unfold settle. destruct (takeItem i (executing s)) as [[item others]|]; [|done].
    assert (Hsub : (size (running s ∖ {[id item]}) <= size (running s))%nat)
      by (apply subseteq_size, subseteq_difference_l; reflexivity).
    destruct result; simpl; lia.
  - unfold fire. destruct (timers s); [done|]. by apply processQueue_bounded.
  - done.
Qed.

Lemma steps_bounded (L : nat) (inputs : list Input) :
  (size (running (steps (init L) inputs)) <= L)%nat
  /\ maxConcurrent (steps (init L) inputs) = L.
Proof.
  induction inputs as [|input inputs IH] using rev_ind.
  - split; [|reflexivity].
    change (size (∅ : gset string) <= L)%nat. rewrite size_empty. lia.
  - rewrite steps_snoc. destruct IH as [IH HL].
    pose proof (step_bounded (steps (init L) inputs) input) as Hb.
    rewrite step_maxConcurrent, HL in *. split; [apply Hb; exact IH|done].
Qed.

(** ** The order of starts *)

Lemma processQueue_fifo (s : System) :
  admitted s = started s ++ (id <$> queue s) ->
  admitted (processQueue s)
  = started (processQueue s) ++ (id <$> queue (processQueue s)).
Proof.
  intros Hs.
  destruct (processQueue_spec s)
    as [[_ ->]|(item & rest & Hq & _ & -> & _ & _ & -> & -> & _)]; [done|].
  rewrite Hs, Hq, <- app_assoc. reflexivity.
Qed.

Lemma step_fifo (s : System) (input : Input) :
  admitted s = started s ++ (id <$> queue s) ->
  admitted (step s input) = started (step s input) ++ (id <$> queue (step s input)).
Proof.
  intros Hs. destruct input as [newId request|i result| |j]; simpl.
  - unfold handleGenerate, add. apply processQueue_fifo. simpl.
    rewrite Hs, fmap_app, app_assoc. reflexivity.
  - unfold settle. destruct (takeItem i (executing s)) as [[item others]|]; [|done].
    destruct result; done.
  - unfold fire. destruct (timers s); [done|]. by apply processQueue_fifo.
  - done.
Qed.

Lemma steps_fifo (L : nat) (inputs : list Input) :
  admitted (steps (init L) inputs)
  = started (steps (init L) inputs) ++ (id <$> queue (steps (init L) inputs)).
Proof.
  induction inputs as [|input inputs IH] using rev_ind; [done|].
  rewrite steps_snoc. by apply step_fifo.
Qed.

(** ** A burst of admissions *)

Lemma admissions_state (L : nat) (gens : list (string * Request)) :
  NoDup gens.*1 ->
  let s := steps (init L) (admissions gens) in
  size (running s) = (length gens `min` L)%nat
  /\ length (queue s) = (length gens - L)%nat
  /\ admitted s = gens.*1
  /\ running s ⊆ list_to_set (admitted s).
Proof.
  induction gens as [|[newId request] gens IH] using rev_ind; intros Hnodup s.
  - subst s. simpl. repeat split; done.
  - rewrite fmap_app in Hnodup. simpl in Hnodup.
    apply NoDup_app in Hnodup as (Hnodup & Hfresh & _).
    specialize (IH Hnodup). simpl in IH.
    destruct IH as (Hrun & Hqueue & Hadm & Hsub).
    subst s. unfold admissions in *. rewrite map_app. simpl. rewrite steps_snoc.
    pose proof (steps_bounded L (map (fun g => Generate g.1 g.2) gens)) as [_ HL].
    set (s0 := steps (init L) (map (fun g => Generate g.1 g.2) gens)) in *.
    rewrite length_app. simpl.
    assert (Hnew : newId ∉ running s0).
    { intros Hin. apply Hsub in Hin. rewrite Hadm in Hin.
      apply elem_of_list_to_set in Hin. apply (Hfresh newId Hin). by left. }
    unfold handleGenerate, add.
    match goal with |- context [processQueue ?x] => set (s1 := x) end.
    destruct (processQueue_spec s1)
      as [[Hstop ->]|(item & rest & Hq & Hfree & -> & -> & _ & -> & _)];
      subst s1; simpl in *.
    + destruct Hstop as [Hfull|Hnil]; [|apply app_eq_nil in Hnil as [_ [=]]].
      rewrite HL, Hrun in Hfull.
      split; [rewrite Hrun; lia|].
      split; [rewrite length_app, Hqueue; simpl; lia|].
      split; [by rewrite Hadm, fmap_app|].
      rewrite list_to_set_app_L.
      etrans; [exact Hsub|apply union_subseteq_l].
    + rewrite HL, Hrun in Hfree.
      assert (Hempty : queue s0 = []).
      { destruct (queue s0); [done|]. simpl in Hqueue. lia. }
      rewrite Hempty in Hq. simpl in Hq. injection Hq as <- <-. simpl.
      split; [|split; [lia|split; [by rewrite Hadm, fmap_app|]]].
      * rewrite size_union by (apply disjoint_singleton_l; exact Hnew).
        rewrite size_singleton, Hrun. lia.
      * rewrite list_to_set_app_L. apply union_least.
        -- etrans; [|apply union_subseteq_r]. simpl.
           apply singleton_subseteq_l, elem_of_union_l, elem_of_singleton. reflexivity.
        -- etrans; [exact Hsub|apply union_subseteq_l].
Qed.

(** C3. Whatever happens to the page, the running set never holds more than
    [L] identifiers; and once [N > L] jobs with distinct identifiers have
    been submitted in a row, [N - L] of them are pending (and [L] running). *)
Theorem running_bounded_pending_excess (L : nat) :
  (forall inputs : list Input,
     (size (running (steps (init L) inputs)) <= L)%nat)
  /\ (forall gens : list (string * Request),
        NoDup gens.*1 ->
        (L < length gens)%nat ->
        length (queue (steps (init L) (admissions gens))) = (length gens - L)%nat
        /\ size (running (steps (init L) (admissions gens))) = L).
Proof.
  split.
  - intros inputs. apply steps_bounded.
  - intros gens Hnodup Hmore.
    destruct (admissions_state L gens Hnodup) as (Hrun & Hqueue & _).
    split; [exact Hqueue|]. rewrite Hrun. lia.
Qed.

(** C4. Whatever happens to the page, the identifiers started so far followed
    by the pending ones are the admitted ones in admission order: the [k]-th
    job to start is the [k]-th job admitted. So when a job admitted at
    position [b] has started, a job admitted earlier (at [a < b]) started
    before it. *)
Theorem fifo_start_order (L : nat) (inputs : list Input) :
  let s := steps (init L) inputs in
  admitted s = started s ++ (id <$> queue s)
  /\ forall (a b : nat) (A B : string),
       (a < b)%nat ->
       admitted s !! a = Some A ->
       admitted s !! b = Some B ->
       (b < length (started s))%nat ->
       started s !! a = Some A /\ started s !! b = Some B.
Proof.
  intros s. pose proof (steps_fifo L inputs) as Hfifo. fold s in Hfifo.
  split; [exact Hfifo|].
  intros a b A B Hab HA HB Hstarted.
  rewrite Hfifo in HA, HB.
  rewrite lookup_app_l in HA by lia. rewrite lookup_app_l in HB by lia. done.
Qed.

(** C8 (as the code has it). The queue has no removal: deleting a job on the
    page changes the job list only and leaves the pending queue, the running
    set and the queue status as they are; and no input drops a pending item:
    after any input a pending item is still pending or has been started. *)
Theorem delete_keeps_pending (s : System) :
  (forall j : nat,
     queue (handleDeleteJob j s) = queue s
     /\ running (handleDeleteJob j s) = running s
     /\ getQueueStatus (handleDeleteJob j s) = getQueueStatus s)
  /\ (forall (input : Input) (item : QueueItem),
        item ∈ queue s ->
        item ∈ queue (step s input) \/ id item ∈ started (step s input)).
Proof.
  split; [done|].
  assert (Hprocess : forall (s0 : System) (item : QueueItem),
            item ∈ queue s0 ->
            item ∈ queue (processQueue s0) \/ id item ∈ started (processQueue s0)).
  { intros s0 item Hin.
    destruct (processQueue_spec s0)
      as [[_ ->]|(head & rest & Hq & _ & -> & _ & _ & _ & -> & _)]; [by left|].
    rewrite Hq in Hin. apply elem_of_cons in Hin as [->|Hin]; [right|by left].
    apply elem_of_app. right. by apply list_elem_of_singleton. }
  intros input item Hin. destruct input as [newId request|i result| |j]; simpl.
  - unfold handleGenerate, add. apply Hprocess. simpl.
    apply elem_of_app. by left.
  - unfold settle. destruct (takeItem i (executing s)) as [[found others]|]; [|by left].
    destruct result; by left.
  - unfold fire. destruct (timers s); [by left|]. by apply Hprocess.
  - by left.
Qed.

End SchedulerFacts.

(** * Worked executions *)

Section Executions.

Import VideoQueue Scenario.

Open Scope nat_scope.

(** C1. Three videos are returned; the download of the second one answers 500
    at each of its six attempts and the other two succeed. The rejection of
    that one promise rejects [Promise.all]: the job fails with the error of
    the second download instead of succeeding with the first and third
    videos. A video that merely has no download link is dropped, and the job
    then succeeds with the other two in their order. *)
Theorem failed_download_rejects_job :
  (job (Some 1) (Some threeVideos) [1]).1
  = Throw (newError "Failed to download video 2: 500 Internal Server Error")
  /\ attempts (Fetch 1) (log (job (Some 1) (Some threeVideos) [1]).2) = 6
  /\ (job (Some 1) (Some secondLinkMissing) []).1
     = Ok [ objectURL "https://videos/1?alt=media&key=key";
            objectURL "https://videos/3?alt=media&key=key" ].
Proof. vm_compute. repeat split. Qed.

(** A submission that is refused with a 403: one call, the 403 rethrown. *)
Lemma retry_non_retryable_single_attempt_witness :
  exists st',
    retryWithBackoff (remote Submit denied) 8 5000 start = (Throw forbidden, st')
    /\ attempts Submit (log st') = 1.
Proof.
  destruct (retry_non_retryable_single_attempt denied Submit 8 5000 start forbidden 1)
    as (st' & Hrun & _ & _ & Hcount).
  - reflexivity.
  - right. right. reflexivity.
  - exists st'. split; [exact Hrun|exact Hcount].
Defined.

(** A submission that meets two 503 and then succeeds; one that meets three
    503 with two retries allowed. *)
Lemma retry_transient_backoff_witness :
  (exists st' new,
     retryWithBackoff (remote Submit (flaky 2)) 8 5000 start
     = (Ok "operations/1"%string, st')
     /\ attempts Submit new = 3
     /\ sleeps new = [ (5000 * pow (3 # 2) 0)%Q; (5000 * pow (3 # 2) 1)%Q ]
     /\ (5000 * pow (3 # 2) 0 < 5000 * pow (3 # 2) 1)%Q)
  /\ (exists st',
        retryWithBackoff (remote Submit (flaky 9)) 2 5000 start
        = (Throw unavailable, st')).
Proof.
  split.
  - destruct (retry_transient_backoff (flaky 2) Submit 8 5000 start) as [Hok _].
    destruct (Hok [unavailable; unavailable] 2 3 "operations/1"%string)
      as (st' & new & Hrun & _ & _ & Hcount & Hsleeps & Hincr).
    + simpl. exists 1. split; [reflexivity|]. split; [reflexivity|].
      exists 2. split; [reflexivity|]. split; reflexivity.
    + reflexivity.
    + simpl. lia.
    + exists st', new. split; [exact Hrun|]. split; [exact Hcount|].
      split; [exact Hsleeps|].
      apply (Hincr eq_refl 0); rewrite Hsleeps; reflexivity.
  - destruct (retry_transient_backoff (flaky 9) Submit 2 5000 start) as [_ Hfail].
    destruct (Hfail [unavailable; unavailable] unavailable 2 3)
      as (st' & new & Hrun & _).
    + simpl. exists 1. split; [reflexivity|]. split; [reflexivity|].
      exists 2. split; [reflexivity|]. split; reflexivity.
    + reflexivity.
    + reflexivity.
    + exists st'. exact Hrun.
Defined.

(** A service that never reports the operation done. *)
Lemma poll_cap_timeout_witness :
  (job None None []).1 = Throw (newError timeoutMessage).
Proof.
  destruct (poll_cap_timeout (fun _ polls => (Ok ""%string, polls)) generate
              (statusOf None None) (download []) objectURL (fun _ => [])
              "key" "a prompt" None veo 1 start submitted.2 pendingOperation)
    as (ls & st2 & st3 & _ & _ & Hrun & _).
  - intros k o w. reflexivity.
  - reflexivity.
  - reflexivity.
  - unfold job. rewrite Hrun. reflexivity.
Defined.

(** A service that reports the operation done, without videos, at the first
    status request. *)
Lemma empty_result_failure_witness :
  (job (Some 1) None []).1 = Throw (newError noVideosMessage).
Proof.
  destruct (empty_result_failure (fun _ polls => (Ok ""%string, polls)) generate
              (statusOf (Some 1) None) (download []) objectURL (fun _ => [])
              "key" "a prompt" None veo 1 start submitted.2
              (polled (Some 1) None).2 pendingOperation
              {| operation := finished None; pollAttempts := 1; messageIndex := 2 |})
    as (_ & (st3 & Hrun) & _).
  - reflexivity.
  - vm_compute. reflexivity.
  - unfold maxPollAttempts. simpl. lia.
  - left. reflexivity.
  - unfold job. rewrite Hrun. reflexivity.
Defined.

(** A service that first reports the operation done, with three videos, at
    the hundredth status request. *)
Lemma done_at_cap_times_out_witness :
  (polled (Some 100) (Some threeVideos)).1
  = Ok {| operation := finished (Some threeVideos);
          pollAttempts := 100; messageIndex := 5 |}
  /\ (job (Some 100) (Some threeVideos) []).1 = Throw (newError timeoutMessage).
Proof.
  split; [vm_compute; reflexivity|].
  destruct (done_at_cap_times_out (fun _ polls => (Ok ""%string, polls)) generate
              (statusOf (Some 100) (Some threeVideos)) (download []) objectURL
              (fun _ => [])
              "key" "a prompt" None veo 1 start submitted.2
              (polled (Some 100) (Some threeVideos)).2 pendingOperation
              {| operation := finished (Some threeVideos);
                 pollAttempts := 100; messageIndex := 5 |}
              {| uri := Some "https://videos/1?alt=media"%string |}
              [ {| uri := Some "https://videos/2?alt=media"%string |};
                {| uri := Some "https://videos/3?alt=media"%string |} ])
    as (st3 & Hrun).
  - reflexivity.
  - vm_compute. reflexivity.
  - reflexivity.
  - reflexivity.
  - reflexivity.
  - unfold job. rewrite Hrun. reflexivity.
Defined.

(** C7, as stated, fails: a job whose operation is reported done at the
    seventh status request makes seven iterations, all successful, and
    records five stage messages in all, the last of them once. *)
Lemma last_stage_message_not_repeated :
  let l := log (job (Some 7) (Some threeVideos) []).2 in
  (polled (Some 7) (Some threeVideos)).1
  = Ok {| operation := finished (Some threeVideos);
          pollAttempts := 7; messageIndex := 5 |}
  /\ attempts Poll l = 7
  /\ stageMessages l = progressMessages
  /\ length (stageMessages l) < attempts Poll l
  /\ stageMessages
       (log (pollIteration (statusOf (Some 7) (Some threeVideos)) "key"
               {| operation := pendingOperation; pollAttempts := 4;
                  messageIndex := 5 |}
               start).2)
     = [].
Proof. vm_compute. repeat split; lia. Qed.

(** An iteration entered with the five messages used up. *)
Lemma stage_message_per_iteration_witness :
  exists new,
    log (pollIteration (statusOf None None) "key"
           {| operation := pendingOperation; pollAttempts := 5; messageIndex := 5 |}
           start).2
    = new
    /\ stageMessages new = []
    /\ messageIndex
         {| operation := pendingOperation; pollAttempts := 6; messageIndex := 5 |} = 5.
Proof.
  destruct (stage_message_per_iteration (statusOf None None) "key"
              {| operation := pendingOperation; pollAttempts := 5; messageIndex := 5 |}
              start)
    as (new & Hlog & Hstage & Hindex).
  exists new. split; [exact Hlog|]. split; [exact Hstage|].
  apply (Hindex _ {| world := 1; log := [Sleep 15000; Call Poll] |}).
  reflexivity.
Defined.

(** Five jobs on the queue of the page: one waits, four run. *)
Lemma running_bounded_pending_excess_witness :
  length (queue fiveAdmitted) = 1 /\ size (running fiveAdmitted) = 4.
Proof.
  destruct (running_bounded_pending_excess 4) as [_ Hburst].
  apply (Hburst fiveJobs).
  - apply (bool_decide_unpack _). vm_compute. exact I.
  - simpl. lia.
Defined.

(** The fifth job starts fifth, after the first one. *)
Lemma fifo_start_order_witness :
  started afterCooldown !! 0 = Some "video_1_a"%string
  /\ started afterCooldown !! 4 = Some "video_5_e"%string.
Proof.
  pose proof (fifo_start_order 4
                (admissions fiveJobs
                 ++ [Delete 4; Settle "video_1_a" (Ok ["blob:1"%string]); Timer]))
    as Hfifo.
  cbv zeta in Hfifo. destruct Hfifo as [_ Hfifo].
  unfold afterCooldown. apply (Hfifo 0 4).
  - lia.
  - vm_compute. reflexivity.
  - vm_compute. reflexivity.
  - vm_compute. lia.
Defined.

(** C8, as stated, fails: there is no removal. The fifth job waits in the
    queue; deleting it on the page takes it off the job list and leaves it in
    the queue; when the first job completes and the cooldown timer fires, it
    is started. *)
Lemma deleted_pending_job_still_starts :
  id <$> queue fiveAdmitted = ["video_5_e"%string]
  /\ sink <$> queue fiveAdmitted = [4]
  /\ jobId <$> jobs afterDelete = [0; 1; 2; 3]
  /\ id <$> queue afterDelete = ["video_5_e"%string]
  /\ "video_5_e"%string ∈ running afterCooldown
  /\ started afterCooldown
     = ["video_1_a"; "video_2_b"; "video_3_c"; "video_4_d"; "video_5_e"]%string.
Proof.
  repeat split;
    first [ vm_compute; reflexivity
          | apply (bool_decide_unpack _); vm_compute; exact I ].
Qed.

(** The deletion of the waiting job leaves its item in the queue. *)
Lemma delete_keeps_pending_witness :
  {| id := "video_5_e"; request := sample; sink := 4 |} ∈ queue afterDelete
  \/ "video_5_e"%string ∈ started afterDelete.
Proof.
  destruct (delete_keeps_pending fiveAdmitted) as [_ Hkeep].
  apply (Hkeep (Delete 4) {| id := "video_5_e"; request := sample; sink := 4 |}).
  change (queue fiveAdmitted)
    with [ {| id := "video_5_e"%string; request := sample; sink := 4 |} ].
  apply list_elem_of_here.
Defined.

End Executions.

(** * Further properties of the retrier *)

Section RetrierBounds.

Context {World : Type}.
Context {T : Type}.
Variable op : World -> Outcome T * World.
Variable c : Remote.

(** Each pass of the loop that is entered makes one call; the passes before
    the last one each record a notice and the wait of their attempt. *)
Lemma retryLoop_shape (maxRetries : nat) (baseDelay : Q) :
  forall (todo attempt : nat) (lastError : option JsError) (st : St),
    (attempt + todo)%nat = maxRetries ->
    exists k : nat,
      (k <= todo)%nat
      /\ log (retryLoop (remote c op) maxRetries baseDelay (S todo) attempt
                lastError st).2
         = log st ++ retryEvents c maxRetries baseDelay attempt k ++ [Call c].
Proof.
  induction todo as [|todo IH]; intros attempt lastError st Hsum.
  - exists 0%nat. split; [lia|]. simpl.
    destruct (Nat.leb_spec attempt maxRetries) as [_|Hgt]; [|lia].
    unfold tryCatch.
    destruct (op (world st)) as [[v|e] w'] eqn:Hop;
      rewrite (remote_run c op st _ _ Hop); [reflexivity|].
    destruct (nonRetryable e); [reflexivity|].
    destruct (Nat.eqb_spec attempt maxRetries) as [_|Hne]; [reflexivity|lia].
  - remember (S todo) as n eqn:Hn. simpl.
    destruct (Nat.leb_spec attempt maxRetries) as [_|Hgt]; [|lia].
    unfold tryCatch.
    destruct (op (world st)) as [[v|e] w'] eqn:Hop;
      rewrite (remote_run c op st _ _ Hop).
    { exists 0%nat. split; [lia|reflexivity]. }
    destruct (nonRetryable e); [exists 0%nat; split; [lia|reflexivity]|].
    destruct (Nat.eqb_spec attempt maxRetries) as [Heq|_]; [lia|].
    unfold bind, onProgress, sleep, emit. cbn [fst snd world log].
    subst n.
    destruct (IH (S attempt) (Some e)
                {| world := w';
                   log := ((log st ++ [Call c])
                           ++ [Progress (retryMessage attempt maxRetries
                                           (retryDelay baseDelay attempt))])
                          ++ [Sleep (retryDelay baseDelay attempt)] |})
      as (k & Hk & Hlog); [lia|].
    exists (S k). split; [lia|].
    rewrite Hlog. cbn [log retryEvents]. rewrite <- !app_assoc. reflexivity.
Qed.

(** X1. Whatever the operation does, one run of the retrier calls it at least
    once and at most [maxRetries + 1] times, and between two calls it waits
    the backoff delay of the failed attempt: after [k + 1] calls the waits
    are [baseDelay * 1.5 ^ i] for [i = 0 .. k - 1], nothing else. *)
Theorem retry_calls_bounded (maxRetries : nat) (baseDelay : Q) (st : St) :
  exists (k : nat) (new : list Event),
    (k <= maxRetries)%nat
    /\ log (retryWithBackoff (remote c op) maxRetries baseDelay st).2
       = log st ++ new
    /\ attempts c new = S k
    /\ sleeps new = map (fun i => (baseDelay * pow (3 # 2) i)%Q) (seq 0 k).
Proof.
  destruct (retryLoop_shape maxRetries baseDelay maxRetries 0 None st eq_refl)
    as (k & Hk & Hlog).
  exists k, (retryEvents c maxRetries baseDelay 0 k ++ [Call c]).
  split; [exact Hk|]. split; [exact Hlog|]. split.
  - rewrite attempts_app, attempts_retryEvents, attempts_call. lia.
  - rewrite sleeps_app, sleeps_retryEvents. simpl. apply app_nil_r.
Qed.

(** The loop stops at the first failure that is not retryable. *)
Lemma retryLoop_refused (maxRetries : nat) (baseDelay : Q) (es : list JsError) :
  forall (todo attempt : nat) (lastError : option JsError) (st : St)
         (e : JsError) (w1 w2 : World),
    failing op es (world st) w1 ->
    op w1 = (Throw e, w2) ->
    nonRetryable e = true ->
    (length es < todo)%nat ->
    (attempt + length es <= maxRetries)%nat ->
    retryLoop (remote c op) maxRetries baseDelay todo attempt lastError st
    = (Throw e, {| world := w2;
                   log := log st ++ retryEvents c maxRetries baseDelay attempt (length es)
                          ++ [Call c] |}).
Proof.
  induction es as [|e0 es IH];
    intros todo attempt lastError st e w1 w2 Hf Hop Hno Htodo Hle.
  - simpl in Hf. subst w1. destruct todo as [|todo]; [simpl in Htodo; lia|].
    simpl. simpl in Hle.
    destruct (Nat.leb_spec attempt maxRetries) as [_|Hgt]; [|lia].
    unfold tryCatch. rewrite (remote_run _ _ _ _ _ Hop), Hno. reflexivity.
  - destruct Hf as (w' & Hop0 & Hretry & Hf).
    destruct todo as [|todo]; [simpl in Htodo; lia|].
    simpl in Htodo, Hle. simpl.
    destruct (Nat.leb_spec attempt maxRetries) as [_|Hgt]; [|lia].
    unfold tryCatch at 1. rewrite (remote_run _ _ _ _ _ Hop0), Hretry.
    destruct (Nat.eqb_spec attempt maxRetries) as [Heq|_]; [lia|].
    unfold bind, onProgress, sleep, emit. simpl.
    rewrite (IH todo (S attempt) (Some e0) _ e w1 w2); simpl; try done; try lia.
    do 2 f_equal. rewrite <- !app_assoc. reflexivity.
Qed.

(** X2. A failure with status 400, 401 or 403 ends the retries at whatever
    attempt it occurs: after [k] retryable failures ([k <= maxRetries]) it is
    thrown unchanged by the call number [k + 1], with no notice and no wait
    after it. *)
Theorem retry_stops_at_refusal (maxRetries : nat) (baseDelay : Q) (st : St)
    (es : list JsError) (e : JsError) (w1 w2 : World) :
  failing op es (world st) w1 ->
  op w1 = (Throw e, w2) ->
  status e = Some 400%Z \/ status e = Some 401%Z \/ status e = Some 403%Z ->
  (length es <= maxRetries)%nat ->
  exists st' new,
    retryWithBackoff (remote c op) maxRetries baseDelay st = (Throw e, st')
    /\ world st' = w2
    /\ log st' = log st ++ new
    /\ attempts c new = S (length es)
    /\ length (sleeps new) = length es
    /\ last new = Some (Call c).
Proof.
  intros Hf Hop Hstatus Hk. apply nonRetryable_status in Hstatus.
  exists {| world := w2;
            log := log st ++ retryEvents c maxRetries baseDelay 0 (length es)
                   ++ [Call c] |}.
  exists (retryEvents c maxRetries baseDelay 0 (length es) ++ [Call c]).
  split; [|split; [reflexivity|split; [reflexivity|split; [|split]]]].
  - unfold retryWithBackoff.
    apply (retryLoop_refused maxRetries baseDelay es _ _ _ _ _ w1); auto; lia.
  - rewrite attempts_app, attempts_retryEvents, attempts_call. lia.
  - rewrite sleeps_app, sleeps_retryEvents, length_app, length_map, length_seq.
    simpl. lia.
  - apply last_snoc.
Qed.

End RetrierBounds.

(** * Further properties of the task executor *)

Section ExecutorBounds.

Context {World : Type}.
Variable fileToBase64 : File -> World -> Outcome string * World.
Variable generateVideos : string -> Payload -> World -> Outcome Operation * World.
Variable getVideosOperation : string -> Operation -> World -> Outcome Operation * World.
Variable fetch : nat -> string -> World -> Outcome Response * World.
Variable createObjectURL : string -> string.
Variable settleOrder : World -> list nat.

Local Abbreviation submit := (submitStage fileToBase64 generateVideos).
Local Abbreviation polling := (pollStage getVideosOperation).
Local Abbreviation iteration := (pollIteration getVideosOperation).
Local Abbreviation complete := (completeStage fetch createObjectURL settleOrder).
Local Abbreviation execute :=
  (executeGeneration fileToBase64 generateVideos getVideosOperation fetch
     createObjectURL settleOrder).

(** ** The wait after a 503 *)

Lemma pow_ge_1 (b : Q) (n : nat) : (1 <= b)%Q -> (1 <= pow b n)%Q.
Proof.
  intros Hb. induction n as [|n IH]; simpl; [apply Qle_refl|].
  generalize dependent (pow b n). intros p Hp. nra.
Qed.

(** X3. The wait after a failed status refresh with a 503 is never shorter
    than 3 seconds and never longer than 30 seconds, whatever the iteration. *)
Theorem pollBackoff_bounds (pollAttempts : nat) :
  (3000 <= pollBackoff pollAttempts)%Q /\ (pollBackoff pollAttempts <= 30000)%Q.
Proof.
  unfold pollBackoff. split.
  - apply Q.min_glb; [|discriminate].
    pose proof (pow_ge_1 (13 # 10) (pollAttempts mod 10)) as Hp.
    assert (H1 : (1 <= 13 # 10)%Q) by discriminate. specialize (Hp H1).
    generalize dependent (pow (13 # 10) (pollAttempts mod 10)). intros p Hp. lra.
  - apply Q.le_min_r.
Qed.

(** ** What the caller receives *)

Lemma explain_plain (error : JsError) :
  status (explain error) = None
  /\ code (explain error) = None
  /\ exists m, message (explain error) = Some m /\ m <> ""%string.
Proof.
  unfold explain.
  destruct (is503 error); [repeat split; eexists; split; [reflexivity|discriminate]|].
  destruct (statusIs 429 (status error));
    [repeat split; eexists; split; [reflexivity|discriminate]|].
  destruct (statusIs 401 (status error));
    [repeat split; eexists; split; [reflexivity|discriminate]|].
  destruct (statusIs 403 (status error));
    [repeat split; eexists; split; [reflexivity|discriminate]|].
  destruct (message error) as [m|].
  - destruct (includes m "timeout");
      [repeat split; eexists; split; [reflexivity|discriminate]|].
    destruct (String.eqb_spec m ""%string) as [->|Hne];
      repeat split; eexists; (split; [reflexivity|]); [discriminate|exact Hne].
  - repeat split; eexists; split; [reflexivity|discriminate].
Qed.

(** Whatever the body of [executeGeneration] throws reaches the caller
    through [explain]. *)
Lemma execute_rejects (apiKey prompt : string) (imageFile : option File)
    (config : VideoConfig) (numberOfVideos : nat) (st st' : St (World:=World))
    (e : JsError) :
  execute apiKey prompt imageFile config numberOfVideos st = (Throw e, st') ->
  exists e0, e = explain e0.
Proof.
  unfold executeGeneration, tryCatch.
  match goal with |- context [bind ?m ?k st] => destruct (bind m k st) as [[urls|e0] st0] end.
  - discriminate.
  - unfold bind, console, emit. simpl. intros [= <- _]. by exists e0.
Qed.

(** X4. The error with which [executeGeneration] rejects is always a plain
    [Error]: it carries no status and no code, and its message is not empty,
    so the caller can show [err.message] as it is. *)
Theorem rejection_is_plain_error (apiKey prompt : string) (imageFile : option File)
    (config : VideoConfig) (numberOfVideos : nat) (st st' : St (World:=World))
    (e : JsError) :
  execute apiKey prompt imageFile config numberOfVideos st = (Throw e, st') ->
  status e = None /\ code e = None
  /\ exists m, message e = Some m /\ m <> ""%string.
Proof.
  intros Hrun. apply execute_rejects in Hrun as [e0 ->]. apply explain_plain.
Qed.

(** ** What a success means *)

Lemma length_omap_le {A B} (f : A -> option B) (l : list A) :
  (length (omap f l) <= length l)%nat.
Proof.
  induction l as [|x l IH]; [done|]. simpl. change (list_omap A B f l) with (omap f l).
  destruct (f x); simpl; lia.
Qed.

Lemma settleAll_length {A} (tasks : list (M A)) (st : St (World:=World)) :
  length (settleAll tasks st).1 = length tasks.
Proof.
  revert st. induction tasks as [|t tasks IH]; intros st; [done|].
  simpl. destruct (t st) as [r st1]. specialize (IH st1).
  destruct (settleAll tasks st1) as [rs st2]. simpl in *. by rewrite IH.
Qed.

Lemma fulfilled_length {A} (rs : list (Outcome A)) (vs : list A) :
  fulfilled rs = Some vs -> length vs = length rs.
Proof.
  revert vs. induction rs as [|r rs IH]; intros vs; simpl.
  - by intros [= <-].
  - destruct r as [a|e]; [|discriminate].
    destruct (fulfilled rs) as [vs'|]; [|discriminate].
    intros [= <-]. simpl. by rewrite (IH vs').
Qed.

Lemma promiseAll_length {A} (tasks : list (M A)) (st st' : St (World:=World))
    (vs : list A) :
  promiseAll settleOrder tasks st = (Ok vs, st') -> length vs = length tasks.
Proof.
  unfold promiseAll. pose proof (settleAll_length tasks st) as Hlen.
  destruct (settleAll tasks st) as [rs st1]. simpl in Hlen.
  destruct (fulfilled rs) as [vs'|] eqn:Hful.
  - intros [= <- _]. rewrite <- Hlen. by apply fulfilled_length.
  - destruct (firstRejection _ rs); discriminate.
Qed.

Lemma completeStage_ok (apiKey : string) (ls : Loop) (st st' : St (World:=World))
    (urls : list string) :
  complete apiKey ls st = (Ok urls, st') ->
  (pollAttempts ls < maxPollAttempts)%nat
  /\ exists videos,
       generatedVideos (operation ls) = Some videos
       /\ urls <> []
       /\ (length urls <= length videos)%nat.
Proof.
  unfold completeStage.
  destruct (Nat.leb_spec maxPollAttempts (pollAttempts ls)) as [_|Hcap]; [discriminate|].
  destruct (generatedVideos (operation ls)) as [videos|]; [|discriminate].
  destruct (length videos =? 0)%nat; [discriminate|].
  unfold bind, onProgress, emit.
  match goal with
  | |- context [promiseAll settleOrder ?tasks ?s] =>
    destruct (promiseAll settleOrder tasks s) as [[results|e] st2] eqn:Hall
  end; [|discriminate].
  apply promiseAll_length in Hall. rewrite length_imap in Hall.
  destruct (Nat.eqb_spec (length (omap id results)) 0) as [_|Hlen]; [discriminate|].
  intros [= <- _]. split; [exact Hcap|]. exists videos. split; [reflexivity|].
  split; [by destruct (omap id results)|].
  rewrite <- Hall. apply length_omap_le.
Qed.

(** X5. [executeGeneration] resolves only when polling ended below the cap
    with the operation done and carrying videos; the list it resolves with is
    never empty (so [videoUrls[0]] exists) and never longer than the list of
    videos of the operation. *)
Theorem success_means_done_with_videos (apiKey prompt : string)
    (imageFile : option File) (config : VideoConfig) (numberOfVideos : nat)
    (st st' : St (World:=World)) (urls : list string) :
  execute apiKey prompt imageFile config numberOfVideos st = (Ok urls, st') ->
  exists (submitted : Operation) (st1 : St) (ls : Loop) (st2 : St)
         (videos : list VideoData),
    submit apiKey prompt imageFile config numberOfVideos st = (Ok submitted, st1)
    /\ polling apiKey submitted st1 = (Ok ls, st2)
    /\ done (operation ls) = true
    /\ (pollAttempts ls < 100)%nat
    /\ generatedVideos (operation ls) = Some videos
    /\ urls <> []
    /\ (length urls <= length videos)%nat.
Proof.
  unfold executeGeneration, tryCatch, bind.
  destruct (submit apiKey prompt imageFile config numberOfVideos st)
    as [[submitted|e] st1] eqn:Hsubmit; [|discriminate].
  destruct (polling apiKey submitted st1) as [[ls|e] st2] eqn:Hpoll; [|discriminate].
  destruct (complete apiKey ls st2) as [[urls'|e] st3] eqn:Hcomplete; [|discriminate].
  intros [= <- _].
  apply completeStage_ok in Hcomplete as (Hcap & videos & Hvideos & Hne & Hlen).
  exists submitted, st1, ls, st2, videos.
  split; [reflexivity|]. split; [exact Hpoll|]. split.
  - unfold pollStage, bind, onProgress, emit in Hpoll.
    apply pollLoop_exit in Hpoll as [Hdone|Hge]; [exact Hdone|lia|simpl; lia].
  - repeat split; first [done|exact Hcap].
Qed.

(** ** The load put on the service *)

Lemma attempts_retryEvents_le (c c' : Remote) (maxRetries : nat) (baseDelay : Q)
    (attempt k : nat) :
  (attempts c' (retryEvents c maxRetries baseDelay attempt k) <= k)%nat.
Proof.
  revert attempt. induction k as [|k IH]; intros attempt; [done|].
  change (retryEvents c maxRetries baseDelay attempt (S k))
    with ([Call c] ++ [Progress (retryMessage attempt maxRetries (retryDelay baseDelay attempt));
                       Sleep (retryDelay baseDelay attempt)]
          ++ retryEvents c maxRetries baseDelay (S attempt) k).
  rewrite !attempts_app. specialize (IH (S attempt)).
  assert (H1 : (attempts c' [Call c] <= 1)%nat).
  { unfold attempts. etrans; [apply length_filter|]. done. }
  assert (H0 : attempts c' [Progress (retryMessage attempt maxRetries (retryDelay baseDelay attempt));
                            Sleep (retryDelay baseDelay attempt)] = 0%nat)
    by (destruct c'; reflexivity).
  lia.
Qed.

Lemma retry_calls {T} (op : World -> Outcome T * World) (c c' : Remote)
    (maxRetries : nat) (baseDelay : Q) (st : St (World:=World)) :
  (attempts c' (log (retryWithBackoff (remote c op) maxRetries baseDelay st).2)
   <= attempts c' (log st) + S maxRetries)%nat.
Proof.
  destruct (retryLoop_shape op c maxRetries baseDelay maxRetries 0 None st eq_refl)
    as (k & Hk & Hlog).
  unfold retryWithBackoff. rewrite Hlog, !attempts_app.
  pose proof (attempts_retryEvents_le c c' maxRetries baseDelay 0 k) as Hev.
  assert (H1 : (attempts c' [Call c] <= 1)%nat).
  { unfold attempts. etrans; [apply length_filter|]. done. }
  lia.
Qed.

Lemma refresh_calls (apiKey : string) (operation : Operation) (n : nat)
    (st : St (World:=World)) :
  (attempts Poll (log (refresh getVideosOperation apiKey operation n st).2)
   <= attempts Poll (log st) + 6)%nat.
Proof.
  unfold refresh, tryCatch.
  pose proof (retry_calls (getVideosOperation apiKey operation) Poll Poll 5 3000 st)
    as Hcalls.
  destruct (retryWithBackoff _ _ _ st) as [[op'|e] st1]; simpl in Hcalls; [exact Hcalls|].
  unfold bind, console, onProgress, sleep, emit. simpl.
  destruct (is503 e); simpl.
  - rewrite !attempts_app. simpl. change (attempts Poll [_]) with 0%nat. lia.
  - destruct (negb (statusIs 503 (status e)) && negb (statusIs 503 (code e)));
      simpl; rewrite !attempts_app; change (attempts Poll [_]) with 0%nat; lia.
Qed.

Lemma pollIteration_calls (apiKey : string) (ls : Loop) (st : St (World:=World)) :
  (attempts Poll (log (iteration apiKey ls st).2) <= attempts Poll (log st) + 6)%nat.
Proof.
  unfold pollIteration, bind, sleep, emit.
  destruct (stageMessage_run (messageIndex ls)
              {| world := world st; log := log st ++ [Sleep 15000] |})
    as (st1 & -> & _ & Hlog1).
  pose proof (refresh_calls apiKey (operation ls) (S (pollAttempts ls)) st1) as Hcalls.
  assert (Hsame : attempts Poll (log st1) = attempts Poll (log st)).
  { rewrite Hlog1. cbn [log]. rewrite !attempts_app.
    change (attempts Poll [Sleep 15000]) with 0%nat.
    destruct (messageIndex ls <? 5)%nat;
      [change (attempts Poll [Progress _]) with 0%nat
      |change (attempts Poll []) with 0%nat]; lia. }
  destruct (refresh _ _ _ _ st1) as [[op'|e] st2]; simpl in *; lia.
Qed.

Lemma pollLoop_S (apiKey : string) (todo : nat) (ls : Loop) :
  pollLoop getVideosOperation apiKey (S todo) ls
  = if negb (done (operation ls)) && (pollAttempts ls <? maxPollAttempts)%nat
    then bind (iteration apiKey ls) (pollLoop getVideosOperation apiKey todo)
    else ret ls.
Proof. reflexivity. Qed.

Lemma pollLoop_calls (apiKey : string) (todo : nat) :
  forall (ls : Loop) (st : St (World:=World)),
    (attempts Poll (log (pollLoop getVideosOperation apiKey todo ls st).2)
     <= attempts Poll (log st) + 6 * todo)%nat.
Proof.
  induction todo as [|todo IH]; intros ls st; [simpl; lia|].
  rewrite pollLoop_S.
  destruct (negb (done (operation ls)) && (pollAttempts ls <? maxPollAttempts)%nat);
    [|simpl; lia].
  unfold bind. pose proof (pollIteration_calls apiKey ls st) as Hiter.
  destruct (iteration apiKey ls st) as [[ls1|e] st1]; simpl in Hiter; [|simpl; lia].
  specialize (IH ls1 st1). lia.
Qed.

Lemma pollLoop_counter (apiKey : string) (todo : nat) :
  forall (ls ls' : Loop) (st st' : St (World:=World)),
    pollLoop getVideosOperation apiKey todo ls st = (Ok ls', st') ->
    (pollAttempts ls <= pollAttempts ls')%nat
    /\ (pollAttempts ls' <= pollAttempts ls + todo)%nat
    /\ (pollAttempts ls' <= Nat.max (pollAttempts ls) maxPollAttempts)%nat.
Proof.
  induction todo as [|todo IH]; intros ls ls' st st' Hrun.
  - injection Hrun as <- _. lia.
  - rewrite pollLoop_S in Hrun.
    destruct (done (operation ls)); simpl in Hrun; [injection Hrun as <- _; lia|].
    destruct (Nat.ltb_spec (pollAttempts ls) maxPollAttempts) as [Hlt|Hge];
      [|injection Hrun as <- _; lia].
    unfold bind in Hrun.
    destruct (iteration apiKey ls st) as [[ls1|e] st1] eqn:Hiter; [|discriminate].
    apply pollIteration_counter in Hiter as [Hcount _].
    apply IH in Hrun. lia.
Qed.

(** X6. Whatever the service answers, the polling of one job makes at most
    100 iterations and at most 600 status requests (six per iteration). *)
Theorem polling_is_bounded (apiKey : string) (submitted : Operation)
    (st : St (World:=World)) :
  (attempts Poll (log (polling apiKey submitted st).2)
   <= attempts Poll (log st) + 600)%nat
  /\ forall ls st',
       polling apiKey submitted st = (Ok ls, st') -> (pollAttempts ls <= 100)%nat.
Proof.
  unfold pollStage, bind, onProgress, emit. split.
  - etrans; [apply pollLoop_calls|]. simpl log. rewrite attempts_app.
    change (attempts Poll [_]) with 0%nat. unfold maxPollAttempts. lia.
  - intros ls st' Hrun. apply pollLoop_counter in Hrun. simpl in Hrun.
    unfold maxPollAttempts in Hrun. lia.
Qed.

(** ** Failures before the download *)

Lemma execute_submit_throws (apiKey prompt : string) (imageFile : option File)
    (config : VideoConfig) (numberOfVideos : nat) (st st1 : St (World:=World))
    (e : JsError) :
  submit apiKey prompt imageFile config numberOfVideos st = (Throw e, st1) ->
  execute apiKey prompt imageFile config numberOfVideos st
  = (Throw (explain e),
     {| world := world st1;
        log := log st1 ++ [Console ("Video generation error: " +:+ showMessage e)] |}).
Proof.
  intros Hsubmit. unfold executeGeneration, tryCatch, bind. rewrite Hsubmit. reflexivity.
Qed.



Lemma attempts_quiet (c : Remote) (l : list Event) (ev : Event) :
  (forall r, ev <> Call r) -> attempts c (l ++ [ev]) = attempts c l.
Proof.
  intros Hev. rewrite attempts_app.
  assert (H0 : attempts c [ev] = 0%nat); [|lia].
  destruct ev as [m|ms|m|r]; try reflexivity. by destruct (Hev r).
Qed.

Lemma submit_reaches_service (apiKey prompt : string) (imageFile : option File)
    (config : VideoConfig) (numberOfVideos : nat) (st : St (World:=World)) :
  (forall file, imageFile = Some file ->
     exists base64Image w', fileToBase64 file (world st) = (Ok base64Image, w')) ->
  exists (requestPayload : Payload) (st0 : St),
    submit apiKey prompt imageFile config numberOfVideos st
    = retryWithBackoff (remote Submit (generateVideos apiKey requestPayload)) 8 5000 st0
    /\ forall c, attempts c (log st0) = attempts c (log st).
Proof.
  intros Hfile. destruct imageFile as [file|].
  - destruct (Hfile file eq_refl) as (base64Image & w' & Hread).
    unfold submitStage, bind, onProgress, emit, ret. simpl. rewrite Hread.
    eexists _, _. split; [reflexivity|]. intros c. simpl.
    by rewrite !attempts_quiet.
  - unfold submitStage, bind, onProgress, emit, ret. simpl.
    eexists _, _. split; [reflexivity|]. intros c. simpl.
    by rewrite !attempts_quiet.
Qed.

(** X8. A submission that the service refuses with status 400, 401 or 403 is
    sent exactly once and never polled; the job is rejected with the error as
    [explain] words it: the invalid-key message for a 401 and the
    access-denied message for a 403 (unless the error also carries a 503). *)
Theorem refused_submission_is_not_retried (apiKey prompt : string)
    (imageFile : option File) (config : VideoConfig) (numberOfVideos : nat)
    (st : St (World:=World)) (e : JsError) :
  (forall file, imageFile = Some file ->
     exists base64Image w', fileToBase64 file (world st) = (Ok base64Image, w')) ->
  (forall (requestPayload : Payload) (w : World),
     exists w', generateVideos apiKey requestPayload w = (Throw e, w')) ->
  status e = Some 400%Z \/ status e = Some 401%Z \/ status e = Some 403%Z ->
  exists st3 : St,
    execute apiKey prompt imageFile config numberOfVideos st = (Throw (explain e), st3)
    /\ attempts Submit (log st3) = S (attempts Submit (log st))
    /\ attempts Poll (log st3) = attempts Poll (log st)
    /\ (is503 e = false ->
        (status e = Some 401%Z ->
         explain e = newError "🔑 Invalid API key. Please check your Google AI API key.")
        /\ (status e = Some 403%Z ->
            explain e
            = newError "🚫 Access denied. Please check if your API key has access to Veo 3.")).
Proof.
  intros Hfile Hrefuse Hstatus. apply nonRetryable_status in Hstatus.
  destruct (submit_reaches_service apiKey prompt imageFile config numberOfVideos st Hfile)
    as (requestPayload & st0 & Hsubmit & Hsame).
  destruct (Hrefuse requestPayload (world st0)) as (w' & Hop).
  pose proof (retryLoop_refused (generateVideos apiKey requestPayload) Submit 8 5000 []
                9 0 None st0 e (world st0) w' eq_refl Hop Hstatus
                ltac:(simpl; lia) ltac:(simpl; lia)) as Hretry.
  unfold retryWithBackoff in Hsubmit. rewrite Hretry in Hsubmit.
  eexists. split; [apply (execute_submit_throws _ _ _ _ _ _ _ _ Hsubmit)|].
  simpl. split; [|split].
  - rewrite attempts_quiet by discriminate.
    rewrite attempts_app, Hsame. change (attempts Submit [Call Submit]) with 1%nat. lia.
  - rewrite attempts_quiet by discriminate.
    rewrite attempts_app, Hsame. change (attempts Poll [Call Submit]) with 0%nat. lia.
  - intros H503. unfold explain. rewrite H503. split; intros ->; reflexivity.
Qed.

(** X9. When the reference image cannot be read, nothing is sent to the
    service: the job is rejected with the read error as [explain] words it
    and no remote call is made. *)
Theorem unreadable_image_sends_nothing (apiKey prompt : string) (file : File)
    (config : VideoConfig) (numberOfVideos : nat) (st : St (World:=World))
    (e : JsError) (w' : World) :
  fileToBase64 file (world st) = (Throw e, w') ->
  exists st3 : St,
    execute apiKey prompt (Some file) config numberOfVideos st = (Throw (explain e), st3)
    /\ forall c, attempts c (log st3) = attempts c (log st).
Proof.
  intros Hread. eexists. split.
  - apply execute_submit_throws.
    unfold submitStage, bind, onProgress, emit, ret. simpl. rewrite Hread. reflexivity.
  - intros c. simpl. by rewrite !attempts_quiet.
Qed.

(** ** The download stage *)

Lemma retry_first_ok {T} (fn : M T) (maxRetries : nat) (baseDelay : Q)
    (st st' : St (World:=World)) (v : T) :
  fn st = (Ok v, st') ->
  retryWithBackoff fn maxRetries baseDelay st = (Ok v, st').
Proof.
  intros Hfn. unfold retryWithBackoff. simpl. unfold tryCatch. by rewrite Hfn.
Qed.

Lemma retry_always_throws {T} (fn : M T) (maxRetries : nat) (baseDelay : Q) :
  (forall st, exists e st', fn st = (Throw e, st')) ->
  forall (todo attempt : nat) (lastError : option JsError) (st : St (World:=World)),
    exists e st', retryLoop fn maxRetries baseDelay todo attempt lastError st
                  = (Throw e, st').
Proof.
  intros Hfn. induction todo as [|todo IH]; intros attempt lastError st.
  - simpl. destruct lastError; eexists _, _; reflexivity.
  - simpl. destruct (attempt <=? maxRetries)%nat.
    + unfold tryCatch. destruct (Hfn st) as (e & st' & ->).
      destruct (nonRetryable e); [eexists _, _; reflexivity|].
      destruct (attempt =? maxRetries)%nat; [eexists _, _; reflexivity|].
      unfold bind, onProgress, sleep, emit. apply IH.
    + destruct lastError; eexists _, _; reflexivity.
Qed.

Lemma settleAll_imap (P : VideoData -> Prop) (g : VideoData -> option string)
    (R : St (World:=World) -> St (World:=World) -> Prop) :
  (forall st, R st st) ->
  (forall st1 st2 st3, R st1 st2 -> R st2 st3 -> R st1 st3) ->
  forall (videos : list VideoData) (f : nat -> VideoData -> M (option string)),
    Forall P videos ->
    (forall i v st, P v -> exists st', f i v st = (Ok (g v), st') /\ R st st') ->
    forall st, exists st',
      settleAll (imap f videos) st = (map (fun v => Ok (g v)) videos, st') /\ R st st'.
Proof.
  intros Hrefl Htrans. induction videos as [|v videos IH]; intros f HP Hf st.
  - exists st. split; [reflexivity|apply Hrefl].
  - apply Forall_cons in HP as [Hv HP]. rewrite imap_cons. simpl.
    destruct (Hf 0%nat v st Hv) as (st1 & -> & HR1).
    destruct (IH (f ∘ S) HP (fun i => Hf (S i)) st1) as (st2 & -> & HR2).
    exists st2. split; [reflexivity|]. by apply (Htrans _ st1).
Qed.

Lemma fulfilled_all_ok {A} (vs : list A) : fulfilled (map Ok vs) = Some vs.
Proof. induction vs as [|v vs IH]; [done|]. simpl. by rewrite IH. Qed.

Lemma omap_id_map {A B} (g : A -> option B) (l : list A) :
  omap id (map g l) = omap g l.
Proof.
  induction l as [|x l IH]; [done|]. simpl.
  change (list_omap (option B) B id (map g l)) with (omap id (map g l)).
  change (list_omap A B g l) with (omap g l).
  rewrite IH. reflexivity.
Qed.

Section Fetched.

(** Every download answers at once, successfully, with the content
    [content link] of the requested link. *)
Variable content : string -> string.
Hypothesis fetch_ok :
  forall (i : nat) (link : string) (w : World),
    exists res w', fetch i link w = (Ok res, w') /\ ok res = true
                   /\ blob res = content link.

Lemma downloadTask_ok (apiKey : string) (i : nat) (v : VideoData)
    (st : St (World:=World)) :
  exists st',
    downloadTask fetch createObjectURL apiKey i v st
    = (Ok (downloaded createObjectURL content apiKey v), st').
Proof.
  unfold downloadTask, downloaded.
  destruct (uri v) as [link|]; [|eexists; reflexivity].
  destruct (String.eqb link ""%string); [eexists; reflexivity|].
  destruct (fetch_ok i (link +:+ "&key=" +:+ apiKey) (world st))
    as (res & w' & Hfetch & Hok & Hblob).
  unfold bind at 1.
  erewrite retry_first_ok.
  - rewrite <- Hblob. eexists. reflexivity.
  - unfold bind. rewrite (remote_run _ _ _ _ _ Hfetch), Hok. reflexivity.
Qed.

(** X10. When polling ends below the cap with a list of videos and every
    download succeeds at once, the job resolves with one object URL per video
    that has a download link, in the order of the videos reported by the
    service; the videos without a link are left out. *)
Theorem downloads_keep_order (apiKey prompt : string) (imageFile : option File)
    (config : VideoConfig) (numberOfVideos : nat) (st st1 st2 : St (World:=World))
    (submitted : Operation) (ls : Loop) (videos : list VideoData) :
  submit apiKey prompt imageFile config numberOfVideos st = (Ok submitted, st1) ->
  polling apiKey submitted st1 = (Ok ls, st2) ->
  (pollAttempts ls < maxPollAttempts)%nat ->
  generatedVideos (operation ls) = Some videos ->
  omap (downloaded createObjectURL content apiKey) videos <> [] ->
  exists st3 : St,
    execute apiKey prompt imageFile config numberOfVideos st
    = (Ok (omap (downloaded createObjectURL content apiKey) videos), st3).
Proof.
  intros Hsubmit Hpoll Hcap Hvideos Hsome.
  unfold executeGeneration, tryCatch, bind. rewrite Hsubmit, Hpoll.
  unfold completeStage.
  destruct (Nat.leb_spec maxPollAttempts (pollAttempts ls)) as [Hge|_]; [lia|].
  rewrite Hvideos.
  destruct videos as [|v videos]; [done|].
  change (length (v :: videos) =? 0)%nat with false. cbv iota.
  unfold bind, onProgress, emit, promiseAll.
  match goal with
  | |- context [settleAll ?tasks ?s] =>
    destruct (settleAll_imap (fun _ => True)
                (downloaded createObjectURL content apiKey) (fun _ _ => True)
                (fun _ => I) (fun _ _ _ _ _ => I) (v :: videos)
                (downloadTask fetch createObjectURL apiKey)
                (Forall_true _ _ (fun _ => I))
                (fun i v0 st0 _ =>
                   match downloadTask_ok apiKey i v0 st0 with
                   | ex_intro _ st' H => ex_intro _ st' (conj H I)
                   end) s)
      as (st3 & -> & _)
  end.
  rewrite <- (map_map (downloaded createObjectURL content apiKey) Ok).
  rewrite fulfilled_all_ok, omap_id_map.
  destruct (omap (downloaded createObjectURL content apiKey) (v :: videos)) as [|url urls];
    [done|].
  eexists. reflexivity.
Qed.

End Fetched.

Lemma downloadTask_missing (apiKey : string) (i : nat) (v : VideoData)
    (st : St (World:=World)) :
  linkMissing v ->
  exists st',
    downloadTask fetch createObjectURL apiKey i v st = (Ok None, st')
    /\ forall c, attempts c (log st') = attempts c (log st).
Proof.
  intros Hmissing. unfold downloadTask.
  destruct Hmissing as [-> | ->]; simpl; unfold bind, console, emit, ret;
    eexists; (split; [reflexivity|]); intros c; simpl; by rewrite attempts_quiet.
Qed.

(** X11. When polling ends below the cap with a list of videos of which none
    has a download link, no download is requested and the job is rejected
    with the all-downloads-failed error. *)
Theorem no_link_no_download (apiKey prompt : string) (imageFile : option File)
    (config : VideoConfig) (numberOfVideos : nat) (st st1 st2 : St (World:=World))
    (submitted : Operation) (ls : Loop) (videos : list VideoData) :
  submit apiKey prompt imageFile config numberOfVideos st = (Ok submitted, st1) ->
  polling apiKey submitted st1 = (Ok ls, st2) ->
  (pollAttempts ls < maxPollAttempts)%nat ->
  generatedVideos (operation ls) = Some videos ->
  videos <> [] ->
  Forall linkMissing videos ->
  exists st3 : St,
    execute apiKey prompt imageFile config numberOfVideos st
    = (Throw (newError allDownloadsFailedMessage), st3)
    /\ forall c, attempts c (log st3) = attempts c (log st2).
Proof.
  intros Hsubmit Hpoll Hcap Hvideos Hne Hmissing.
  assert (Hcomplete : exists st3,
             complete apiKey ls st2 = (Throw (newError allDownloadsFailedMessage), st3)
             /\ forall c, attempts c (log st3) = attempts c (log st2)).
  { unfold completeStage.
    destruct (Nat.leb_spec maxPollAttempts (pollAttempts ls)) as [Hge|_]; [lia|].
    rewrite Hvideos.
    destruct videos as [|v videos]; [done|].
    change (length (v :: videos) =? 0)%nat with false. cbv iota.
    unfold bind, onProgress, emit, promiseAll.
    match goal with
    | |- context [settleAll ?tasks ?s] =>
      destruct (settleAll_imap linkMissing (fun _ => None)
                  (fun sa sb => forall c, attempts c (log sb) = attempts c (log sa))
                  (fun _ _ => eq_refl)
                  (fun _ _ _ H12 H23 c => eq_trans (H23 c) (H12 c))
                  (v :: videos) (downloadTask fetch createObjectURL apiKey)
                  Hmissing (downloadTask_missing apiKey) s)
        as (st3 & -> & Hsame)
    end.
    rewrite <- (map_map (fun _ : VideoData => @None string) Ok).
    rewrite fulfilled_all_ok, omap_id_map.
    assert (Hnone : omap (fun _ : VideoData => @None string) (v :: videos) = []).
    { generalize (v :: videos). intros l. induction l as [|x l IH]; [done|exact IH]. }
    rewrite Hnone. simpl. eexists. split; [reflexivity|].
    intros c. rewrite Hsame. simpl. by rewrite attempts_quiet. }
  destruct Hcomplete as (st3 & Hcomplete & Hsame).
  eexists. split.
  - change (newError allDownloadsFailedMessage)
      with (explain (newError allDownloadsFailedMessage)) at 1.
    apply (execute_throws _ _ _ _ _ _ _ _ _ _ _ _ _ _ _ _ _ _ Hsubmit Hpoll Hcomplete).
  - intros c. simpl. rewrite attempts_quiet by discriminate. apply Hsame.
Qed.

Lemma settleAll_lookup_throw {A} (tasks : list (M A)) (i : nat) (t : M A) :
  tasks !! i = Some t ->
  (forall st, exists e st', t st = (Throw e, st')) ->
  forall st : St (World:=World), exists e, (settleAll tasks st).1 !! i = Some (Throw e).
Proof.
  revert i. induction tasks as [|t0 tasks IH]; intros i Hi Ht st; [done|].
  simpl. destruct i as [|i].
  - injection Hi as ->. destruct (Ht st) as (e & st' & ->).
    destruct (settleAll tasks st') as [rs st2]. by exists e.
  - destruct (t0 st) as [r st1]. specialize (IH i Hi Ht st1).
    destruct (settleAll tasks st1) as [rs st2]. exact IH.
Qed.

(** X12. One video whose download never succeeds fails the whole job: when
    polling ends below the cap and some video of the list has a download link
    on which every request is answered with a failure status or rejected, the
    job is rejected, whatever happens to the other downloads and in whatever
    order the downloads settle. *)
Theorem one_failed_download_rejects_job (apiKey prompt : string)
    (imageFile : option File) (config : VideoConfig) (numberOfVideos : nat)
    (st st1 st2 : St (World:=World)) (submitted : Operation) (ls : Loop)
    (videos : list VideoData) (i : nat) (downloadLink : string) :
  submit apiKey prompt imageFile config numberOfVideos st = (Ok submitted, st1) ->
  polling apiKey submitted st1 = (Ok ls, st2) ->
  (pollAttempts ls < maxPollAttempts)%nat ->
  generatedVideos (operation ls) = Some videos ->
  videos !! i = Some {| uri := Some downloadLink |} ->
  downloadLink <> ""%string ->
  (forall (link : string) (w : World),
     match (fetch i link w).1 with
     | Ok res => ok res = false
     | Throw _ => True
     end) ->
  exists (e : JsError) (st3 : St),
    execute apiKey prompt imageFile config numberOfVideos st = (Throw e, st3).
Proof.
  intros Hsubmit Hpoll Hcap Hvideos Hi Hlink Hbad.
  assert (Htask : forall s : St (World:=World), exists e s',
             downloadTask fetch createObjectURL apiKey i {| uri := Some downloadLink |} s
             = (Throw e, s')).
  { intros s. unfold downloadTask. simpl.
    destruct (String.eqb_spec downloadLink ""%string) as [Heq|_]; [done|].
    unfold bind at 1. unfold retryWithBackoff.
    match goal with
    | |- context [retryLoop ?fn 5 2000 6 0 None s] =>
      destruct (retry_always_throws fn 5 2000) with (todo := 6%nat) (attempt := 0%nat)
        (lastError := @None JsError) (st := s) as (e & s' & ->)
    end.
    - intros s0. unfold bind, remote. specialize (Hbad (downloadLink +:+ "&key=" +:+ apiKey) (world s0)).
      destruct (fetch i _ (world s0)) as [[res|e] w']; simpl in Hbad.
      + rewrite Hbad. simpl. eexists _, _. reflexivity.
      + eexists _, _. reflexivity.
    - eexists _, _. reflexivity. }
  assert (Hcomplete : exists e st3, complete apiKey ls st2 = (Throw e, st3)).
  { unfold completeStage.
    destruct (Nat.leb_spec maxPollAttempts (pollAttempts ls)) as [Hge|_]; [lia|].
    rewrite Hvideos.
    destruct (Nat.eqb_spec (length videos) 0) as [Hlen|_].
    { apply lookup_lt_Some in Hi. lia. }
    unfold bind, onProgress, emit.
    match goal with
    | |- context [promiseAll settleOrder ?tasks ?s] =>
      destruct (settleAll_lookup_throw tasks i
                  (downloadTask fetch createObjectURL apiKey i {| uri := Some downloadLink |})
                  ltac:(by rewrite list_lookup_imap, Hi) Htask s) as (e & Hthrow);
      destruct (promiseAll_rejects settleOrder tasks s e) as (e' & st3 & ->)
    end.
    - by apply list_elem_of_lookup_2 in Hthrow.
    - eexists _, _. reflexivity. }
  destruct Hcomplete as (e & st3 & Hcomplete).
  eexists _, _.
  apply (execute_throws _ _ _ _ _ _ _ _ _ _ _ _ _ _ _ _ _ _ Hsubmit Hpoll Hcomplete).
Qed.

End ExecutorBounds.

(** * Further properties of the scheduler and of the job list *)

Section SchedulerInvariants.

Import VideoQueue.

Lemma takeItem_Some (i : string) (l : list QueueItem) (item : QueueItem)
    (others : list QueueItem) :
  takeItem i l = Some (item, others) ->
  id item = i /\ exists l1 l2, l = l1 ++ item :: l2 /\ others = l1 ++ l2.
Proof.
  revert others. induction l as [|x l IH]; intros others; [discriminate|].
  simpl. destruct (String.eqb_spec (id x) i) as [Heq|Hne].
  - intros [= <- <-]. split; [exact Heq|]. by exists [], l.
  - destruct (takeItem i l) as [[found rest]|]; [|discriminate].
    intros [= <- <-]. destruct (IH rest eq_refl) as (Hid & l1 & l2 & -> & ->).
    split; [exact Hid|]. by exists (x :: l1), l2.
Qed.

Lemma takeItem_found (i : string) (l : list QueueItem) :
  i ∈ id <$> l -> exists item others, takeItem i l = Some (item, others).
Proof.
  induction l as [|x l IH]; intros Hin; [by apply elem_of_nil in Hin|].
  simpl. destruct (String.eqb_spec (id x) i) as [Heq|Hne]; [by eexists _, _|].
  rewrite fmap_cons in Hin. apply elem_of_cons in Hin as [Hin|Hin]; [by destruct Hne|].
  destruct (IH Hin) as (item & others & ->). by eexists _, _.
Qed.

Lemma step_admitted (s : System) (input : Input) :
  exists l, admitted (step s input) = admitted s ++ l.
Proof.
  destruct input as [newId request|i result| |j]; simpl.
  - exists [newId]. unfold handleGenerate, add.
    match goal with |- context [processQueue ?x] => set (s1 := x) end.
    destruct (processQueue_spec s1)
      as [[_ ->]|(item & rest & _ & _ & _ & _ & _ & -> & _)]; reflexivity.
  - exists []. rewrite app_nil_r. unfold settle.
    destruct (takeItem i (executing s)) as [[item others]|]; [|done].
    by destruct result.
  - exists []. rewrite app_nil_r. unfold fire. destruct (timers s) as [|n]; [done|].
    match goal with |- context [processQueue ?x] => set (s1 := x) end.
    destruct (processQueue_spec s1)
      as [[_ ->]|(item & rest & _ & _ & _ & _ & _ & -> & _)]; reflexivity.
  - exists []. by rewrite app_nil_r.
Qed.

Lemma size_remove_one (X : gset string) (x : string) :
  (size X <= size (X ∖ {[x]}) + 1)%nat.
Proof.
  assert (Hsub : X ⊆ {[x]} ∪ X ∖ {[x]}).
  { intros y Hy. destruct (decide (y = x)) as [->|Hne].
    - apply elem_of_union_l. by apply elem_of_singleton.
    - apply elem_of_union_r. apply elem_of_difference. split; [exact Hy|].
      by rewrite elem_of_singleton. }
  apply subseteq_size in Hsub.
  rewrite size_union_alt, size_singleton in Hsub.
  assert (Hle : (size (X ∖ {[x]} ∖ {[x]}) <= size (X ∖ {[x]}))%nat)
    by (apply subseteq_size, subseteq_difference_l; reflexivity).
  lia.
Qed.

(** The start of the head of the queue keeps the bookkeeping of the awaited
    items exact, provided its identifier is new. *)
Lemma processQueue_executing (s : System) :
  NoDup (admitted s) ->
  admitted s = started s ++ (id <$> queue s) ->
  NoDup (id <$> executing s) ->
  running s = list_to_set (id <$> executing s) ->
  (forall i, i ∈ id <$> executing s -> i ∈ started s) ->
  NoDup (id <$> executing (processQueue s))
  /\ running (processQueue s) = list_to_set (id <$> executing (processQueue s))
  /\ (forall i, i ∈ id <$> executing (processQueue s) -> i ∈ started (processQueue s))
  /\ (forall item rest, queue s = item :: rest -> id item ∉ running s).
Proof.
  intros Hnodup Hfifo Hexec Hrun Hstarted.
  assert (Hfresh : forall item rest, queue s = item :: rest -> id item ∉ running s).
  { intros item rest Hq Hin. rewrite Hrun in Hin. apply elem_of_list_to_set in Hin.
    apply Hstarted in Hin. rewrite Hfifo, Hq in Hnodup.
    apply NoDup_app in Hnodup as (_ & Hdisj & _). apply (Hdisj _ Hin).
    rewrite fmap_cons. apply list_elem_of_here. }
  destruct (processQueue_spec s)
    as [[_ ->]|(item & rest & Hq & _ & _ & -> & _ & _ & -> & -> & _)]; [done|].
  specialize (Hfresh item rest Hq).
  rewrite fmap_app. simpl. repeat split.
  - apply NoDup_app. split; [exact Hexec|]. split; [|apply NoDup_singleton].
    intros x Hx ->%list_elem_of_singleton. apply Hfresh.
    rewrite Hrun. by apply elem_of_list_to_set.
  - rewrite list_to_set_app_L, Hrun. simpl.
    apply set_eq. intros x. rewrite !elem_of_union, elem_of_singleton.
    rewrite elem_of_empty. tauto.
  - intros i [Hi|Hi%list_elem_of_singleton]%elem_of_app; apply elem_of_app;
      [left; by apply Hstarted|right; by apply list_elem_of_singleton].
  - intros item' rest' Hq'. rewrite Hq in Hq'. injection Hq' as <- <-. exact Hfresh.
Qed.

Lemma step_consistent (s : System) (input : Input) :
  consistent s -> NoDup (admitted (step s input)) -> consistent (step s input).
Proof.
  intros (Hfifo & Hexec & Hrun & Hstarted & Hstall) Hnodup.
  assert (Hfifo' := step_fifo s input Hfifo).
  split; [exact Hfifo'|].
  destruct input as [newId request|i result| |j]; simpl in *.
  - unfold handleGenerate, add in *.
    match goal with |- context [processQueue ?x] => set (s1 := x) in * end.
    assert (Hadm1 : admitted (processQueue s1) = admitted s1).
    { destruct (processQueue_spec s1)
        as [[_ ->]|(item & rest & _ & _ & _ & _ & _ & -> & _)]; reflexivity. }
    rewrite Hadm1 in Hnodup.
    assert (Hfifo1 : admitted s1 = started s1 ++ (id <$> queue s1)).
    { subst s1. simpl. rewrite Hfifo, fmap_app, app_assoc. reflexivity. }
    destruct (processQueue_executing s1 Hnodup Hfifo1 Hexec Hrun Hstarted)
      as (H1 & H2 & H3 & Hfresh).
    split; [exact H1|]. split; [exact H2|]. split; [exact H3|].
    destruct (processQueue_spec s1)
      as [[Hstop ->]|(item & rest & Hq & Hfree & -> & -> & -> & _ & _ & _ & ->)].
    + intros _. destruct Hstop as [Hfull|Hnil].
      * subst s1. simpl in *. lia.
      * subst s1. simpl in Hnil. apply app_eq_nil in Hnil as [_ [=]].
    + intros Hrest. subst s1. simpl in *.
      assert (Hq0 : queue s <> []).
      { intros Hnil. rewrite Hnil in Hq. simpl in Hq. injection Hq as _ <-. done. }
      specialize (Hstall Hq0).
      assert (Hge : (size (running s) <= size ({[id item]} ∪ running s))%nat)
        by (apply subseteq_size, union_subseteq_r).
      lia.
  - unfold settle in *.
    destruct (takeItem i (executing s)) as [[item others]|] eqn:Htake;
      [|by repeat split].
    apply takeItem_Some in Htake as (Hid & l1 & l2 & Hl & ->).
    rewrite Hl, fmap_app, fmap_cons in Hexec, Hrun, Hstarted.
    apply NoDup_app in Hexec as (Hn1 & Hdisj & Hn2).
    apply NoDup_cons in Hn2 as (Hnot2 & Hn2).
    assert (Hnot1 : id item ∉ id <$> l1).
    { intros Hin. apply (Hdisj _ Hin). apply list_elem_of_here. }
    assert (Hparts : running s ∖ {[id item]} = list_to_set (id <$> l1 ++ l2)).
    { rewrite Hrun, fmap_app. apply set_eq. intros x.
      rewrite elem_of_difference, !elem_of_list_to_set, elem_of_singleton,
        !elem_of_app, elem_of_cons.
      split; [intros [[?|[?|?]] ?]; tauto|].
      intros [Hx|Hx]; (split; [tauto|]); intros ->; tauto. }
    assert (Hgoal : NoDup (id <$> l1 ++ l2)
                    /\ running s ∖ {[id item]} = list_to_set (id <$> l1 ++ l2)
                    /\ (forall i0, i0 ∈ id <$> l1 ++ l2 -> i0 ∈ started s)
                    /\ (queue s <> [] ->
                        (maxConcurrent s
                         <= size (running s ∖ {[id item]}) + S (timers s))%nat)).
    { split; [|split; [exact Hparts|split]].
      - rewrite fmap_app. apply NoDup_app. split; [exact Hn1|]. split; [|exact Hn2].
        intros x Hx1 Hx2. apply (Hdisj x Hx1). by apply list_elem_of_further.
      - intros x Hx. apply Hstarted. rewrite fmap_app in Hx.
        apply elem_of_app in Hx as [Hx|Hx]; apply elem_of_app; [by left|right].
        by apply list_elem_of_further.
      - intros Hq. specialize (Hstall Hq).
        pose proof (size_remove_one (running s) (id item)). lia. }
    destruct result; simpl; exact Hgoal.
  - unfold fire in *. destruct (timers s) as [|n] eqn:Htimers.
    { rewrite Htimers. by repeat split. }
    match goal with |- context [processQueue ?x] => set (s1 := x) in * end.
    assert (Hadm1 : admitted (processQueue s1) = admitted s1).
    { destruct (processQueue_spec s1)
        as [[_ ->]|(item & rest & _ & _ & _ & _ & _ & -> & _)]; reflexivity. }
    rewrite Hadm1 in Hnodup.
    destruct (processQueue_executing s1 Hnodup Hfifo Hexec Hrun Hstarted)
      as (H1 & H2 & H3 & Hfresh).
    split; [exact H1|]. split; [exact H2|]. split; [exact H3|].
    destruct (processQueue_spec s1)
      as [[Hstop ->]|(item & rest & Hq & Hfree & -> & -> & -> & _ & _ & _ & ->)].
    + intros Hq. destruct Hstop as [Hfull|Hnil]; [|done].
      subst s1. simpl in *. lia.
    + intros Hrest. specialize (Hfresh item rest Hq). subst s1. simpl in *.
      assert (Hq0 : queue s <> []) by (rewrite Hq; discriminate).
      specialize (Hstall Hq0).
      rewrite size_union by (apply disjoint_singleton_l; exact Hfresh).
      rewrite size_singleton. lia.
  - by repeat split.
Qed.

Lemma steps_consistent (L : nat) (inputs : list Input) :
  NoDup (admitted (steps (init L) inputs)) ->
  consistent (steps (init L) inputs).
Proof.
  induction inputs as [|input inputs IH] using rev_ind; intros Hnodup.
  - repeat split; first [done|apply NoDup_nil_2].
  - rewrite steps_snoc in *. apply step_consistent; [|exact Hnodup].
    apply IH. destruct (step_admitted (steps (init L) inputs) input) as [l Hl].
    rewrite Hl in Hnodup. by apply NoDup_app in Hnodup as [? _].
Qed.

(** X13. When the identifiers drawn by [add] are distinct, the running set
    holds exactly the identifiers of the items whose run is awaited: its size
    is the number of jobs that are executing, and at most [L] jobs execute at
    a time. *)
Theorem running_counts_executing_jobs (L : nat) (inputs : list Input) :
  NoDup (admitted (steps (init L) inputs)) ->
  running (steps (init L) inputs)
  = list_to_set (id <$> executing (steps (init L) inputs))
  /\ length (executing (steps (init L) inputs))
     = size (running (steps (init L) inputs))
  /\ (length (executing (steps (init L) inputs)) <= L)%nat.
Proof.
  intros Hnodup.
  destruct (steps_consistent L inputs Hnodup) as (_ & Hexec & Hrun & _).
  pose proof (steps_bounded L inputs) as [Hbound _].
  assert (Hsize : length (executing (steps (init L) inputs))
                  = size (running (steps (init L) inputs))).
  { rewrite Hrun, size_list_to_set by exact Hexec. by rewrite length_fmap. }
  split; [exact Hrun|]. split; [exact Hsize|]. lia.
Qed.

(** X14. A waiting job is never stranded: when the identifiers are distinct
    and the queue is not empty, either a cooldown timer is pending (its
    firing runs [processQueue]) or all [L] slots are taken by executing jobs
    (the end of any of them sets a timer). *)
Theorem waiting_job_not_stranded (L : nat) (inputs : list Input) :
  NoDup (admitted (steps (init L) inputs)) ->
  queue (steps (init L) inputs) <> [] ->
  (0 < timers (steps (init L) inputs))%nat
  \/ (size (running (steps (init L) inputs)) = L
      /\ length (executing (steps (init L) inputs)) = L).
Proof.
  intros Hnodup Hqueue.
  destruct (steps_consistent L inputs Hnodup) as (_ & Hexec & Hrun & _ & Hstall).
  pose proof (steps_bounded L inputs) as [Hbound HL].
  specialize (Hstall Hqueue). rewrite HL in Hstall.
  destruct (timers (steps (init L) inputs)) as [|n]; [right|left; lia].
  assert (Hsize : size (running (steps (init L) inputs)) = L) by lia.
  split; [exact Hsize|].
  etrans; [|exact Hsize].
  rewrite Hrun, size_list_to_set by exact Hexec. by rewrite length_fmap.
Qed.

(** X15. The end of a job frees its slot but starts nothing: the head of the
    queue keeps waiting, and it is the firing of the cooldown timer set by
    that end which starts it. *)
Theorem freed_slot_waits_for_timer (L : nat) (inputs : list Input) (i : string)
    (result : Outcome (list string)) (item : QueueItem) (rest : list QueueItem) :
  NoDup (admitted (steps (init L) inputs)) ->
  queue (steps (init L) inputs) = item :: rest ->
  i ∈ running (steps (init L) inputs) ->
  let s := steps (init L) inputs in
  let s1 := step s (Settle i result) in
  let s2 := step s1 Timer in
  queue s1 = item :: rest
  /\ started s1 = started s
  /\ running s1 = running s ∖ {[ i ]}
  /\ timers s1 = S (timers s)
  /\ queue s2 = rest
  /\ started s2 = started s ++ [id item]
  /\ id item ∈ running s2.
Proof.
  intros Hnodup Hqueue Hin s s1 s2.
  destruct (steps_consistent L inputs Hnodup) as (_ & Hexec & Hrun & _).
  pose proof (steps_bounded L inputs) as [Hbound HL]. fold s in Hexec, Hrun, Hbound, HL, Hqueue, Hin.
  assert (Hawaited : i ∈ id <$> executing s).
  { rewrite Hrun in Hin. by apply elem_of_list_to_set in Hin. }
  destruct (takeItem_found i (executing s) Hawaited) as (found & others & Htake).
  pose proof (takeItem_Some _ _ _ _ Htake) as (Hid & _).
  assert (Hs1 : queue s1 = item :: rest /\ started s1 = started s
                /\ running s1 = running s ∖ {[ i ]} /\ timers s1 = S (timers s)
                /\ maxConcurrent s1 = L).
  { subst s1. simpl. unfold settle. rewrite Htake, Hid.
    destruct result; simpl; repeat split; done. }
  destruct Hs1 as (Hq1 & Hst1 & Hrun1 & Ht1 & Hmax1).
  split; [exact Hq1|]. split; [exact Hst1|]. split; [exact Hrun1|]. split; [exact Ht1|].
  assert (Hfree : (size (running s1) < L)%nat).
  { rewrite Hrun1. rewrite size_difference by (by apply singleton_subseteq_l).
    rewrite size_singleton.
    assert (Hpos : (0 < size (running s))%nat).
    { assert (Hle : (size ({[ i ]} : gset string) <= size (running s))%nat)
        by (by apply subseteq_size, singleton_subseteq_l).
      rewrite size_singleton in Hle. lia. }
    lia. }
  subst s2. simpl. unfold fire. rewrite Ht1.
  match goal with |- context [processQueue ?x] => set (s1' := x) end.
  destruct (processQueue_spec s1')
    as [[Hstop _]|(head & rest' & Hq & _ & -> & -> & _ & _ & -> & _)];
    subst s1'; simpl in *.
  - destruct Hstop as [Hfull|Hnil]; [lia|]. rewrite Hq1 in Hnil. discriminate.
  - rewrite Hq1 in Hq. injection Hq as <- <-.
    split; [reflexivity|]. split; [by rewrite Hst1|].
    apply elem_of_union_l. by apply elem_of_singleton.
Qed.

(** X16. When no more jobs than slots are submitted in a row, with distinct
    identifiers, every one of them starts at its admission, in the order of
    submission, and none waits. *)
Theorem few_jobs_start_at_once (L : nat) (gens : list (string * Request)) :
  NoDup gens.*1 ->
  (length gens <= L)%nat ->
  queue (steps (init L) (admissions gens)) = []
  /\ started (steps (init L) (admissions gens)) = gens.*1
  /\ size (running (steps (init L) (admissions gens))) = length gens.
Proof.
  intros Hnodup Hfew.
  destruct (admissions_state L gens Hnodup) as (Hrun & Hqueue & Hadm & _).
  pose proof (steps_fifo L (admissions gens)) as Hfifo.
  assert (Hnil : queue (steps (init L) (admissions gens)) = []).
  { apply nil_length_inv. rewrite Hqueue. lia. }
  split; [exact Hnil|]. split.
  - rewrite Hnil, app_nil_r in Hfifo. by rewrite <- Hfifo, Hadm.
  - rewrite Hrun. lia.
Qed.

(** ** The job list *)

Lemma jobIds_map (f : GenerationJob -> GenerationJob) (s : System) :
  (forall job, jobId (f job) = jobId job) ->
  jobIds (setJobs (map f) s) = jobIds s.
Proof.
  intros Hf. unfold jobIds. simpl.
  induction (jobs s) as [|job l IH]; [done|].
  change (map f (job :: l)) with (f job :: map f l).
  by rewrite !fmap_cons, Hf, IH.
Qed.

Lemma jobIds_updateJobProgress (j : nat) (m : string) (s : System) :
  jobIds (updateJobProgress j m s) = jobIds s.
Proof. apply jobIds_map. intros job. by destruct (jobId job =? j)%nat. Qed.

Lemma jobIds_resolved (j : nat) (urls : list string) (s : System) :
  jobIds (resolved j urls s) = jobIds s.
Proof. apply jobIds_map. intros job. by destruct (jobId job =? j)%nat. Qed.

Lemma jobIds_rejected (j : nat) (err : JsError) (s : System) :
  jobIds (rejected j err s) = jobIds s.
Proof. apply jobIds_map. intros job. by destruct (jobId job =? j)%nat. Qed.

Lemma jobIds_processQueue (s : System) :
  jobIds (processQueue s) = jobIds s /\ nextJobId (processQueue s) = nextJobId s.
Proof.
  unfold processQueue.
  destruct ((maxConcurrent s <=? size (running s))%nat || (length (queue s) =? 0)%nat);
    [done|].
  destruct (queue s) as [|item rest]; [done|].
  split; [|reflexivity]. by rewrite jobIds_updateJobProgress.
Qed.

Lemma jobIds_delete (j : nat) (s : System) :
  jobIds (handleDeleteJob j s) = filter (fun x => x <> j) (jobIds s).
Proof.
  unfold jobIds. simpl. induction (jobs s) as [|job l IH]; [done|].
  rewrite fmap_cons, !filter_cons.
  destruct (decide (jobId job <> j)); [rewrite fmap_cons|]; by rewrite IH.
Qed.

(** What each input does to the identifiers of the job list. *)
Lemma step_jobIds (s : System) (input : Input) :
  match input with
  | Generate _ _ =>
    jobIds (step s input) = jobIds s ++ [nextJobId s]
    /\ nextJobId (step s input) = S (nextJobId s)
  | Delete j =>
    jobIds (step s input) = filter (fun x => x <> j) (jobIds s)
    /\ nextJobId (step s input) = nextJobId s
  | _ => jobIds (step s input) = jobIds s /\ nextJobId (step s input) = nextJobId s
  end.
Proof.
  destruct input as [newId request|i result| |j]; simpl.
  - unfold handleGenerate, add.
    match goal with |- context [processQueue ?x] => set (s1 := x) end.
    destruct (jobIds_processQueue s1) as [-> ->]. subst s1.
    rewrite jobIds_updateJobProgress. split; [|reflexivity].
    unfold jobIds. simpl. by rewrite fmap_app.
  - unfold settle. destruct (takeItem i (executing s)) as [[item others]|]; [|done].
    destruct result as [urls|err]; split; try reflexivity.
    + apply (jobIds_resolved (sink item) urls s).
    + apply (jobIds_rejected (sink item) err s).
  - unfold fire. destruct (timers s) as [|n]; [done|].
    match goal with |- context [processQueue ?x] => set (s1 := x) end.
    destruct (jobIds_processQueue s1) as [-> ->]. done.
  - split; [apply jobIds_delete|reflexivity].
Qed.

Lemma steps_jobIds (L : nat) (inputs : list Input) :
  NoDup (jobIds (steps (init L) inputs))
  /\ Forall (fun j => (j < nextJobId (steps (init L) inputs))%nat)
       (jobIds (steps (init L) inputs)).
Proof.
  induction inputs as [|input inputs IH] using rev_ind.
  - split; [apply NoDup_nil_2|apply Forall_nil_2].
  - rewrite steps_snoc. destruct IH as [Hnodup Hbelow].
    pose proof (step_jobIds (steps (init L) inputs) input) as Hstep.
    set (s := steps (init L) inputs) in *.
    destruct input as [newId request|i result| |j]; destruct Hstep as [-> ->].
    + split.
      * apply NoDup_app. split; [exact Hnodup|]. split; [|apply NoDup_singleton].
        intros x Hx ->%list_elem_of_singleton.
        rewrite Forall_forall in Hbelow. specialize (Hbelow _ Hx). lia.
      * apply Forall_app. split; [|apply Forall_singleton; lia].
        eapply Forall_impl; [exact Hbelow|]. simpl. lia.
    + done.
    + done.
    + split; [by apply NoDup_filter|].
      apply Forall_forall. intros x [_ Hx]%list_elem_of_filter.
      rewrite Forall_forall in Hbelow. by apply Hbelow.
Qed.

(** X17. The jobs shown on the page always have distinct identifiers, all
    below the next identifier to be given, so a progress message, a result or
    an error reaches one job at most. *)
Theorem job_identifiers_are_distinct (L : nat) (inputs : list Input) :
  NoDup (jobIds (steps (init L) inputs))
  /\ (forall j, j ∈ jobIds (steps (init L) inputs) ->
                (j < nextJobId (steps (init L) inputs))%nat).
Proof.
  destruct (steps_jobIds L inputs) as [Hnodup Hbelow].
  split; [exact Hnodup|]. by apply Forall_forall.
Qed.

(** X18. A job deleted from the page never comes back: whatever happens
    afterwards (its own run may still settle, other jobs may be submitted),
    no job of the list carries its identifier again. *)
Theorem deleted_job_stays_deleted (L : nat) (inputs more : list Input) (j : nat) :
  j ∈ jobIds (steps (init L) inputs) ->
  j ∉ jobIds (steps (handleDeleteJob j (steps (init L) inputs)) more).
Proof.
  intros Hin.
  destruct (steps_jobIds L inputs) as [_ Hbelow].
  rewrite Forall_forall in Hbelow. specialize (Hbelow j Hin).
  set (s := steps (init L) inputs) in *.
  assert (Hinv : (j ∉ jobIds (steps (handleDeleteJob j s) more))
                 /\ (j < nextJobId (steps (handleDeleteJob j s) more))%nat);
    [|by destruct Hinv].
  induction more as [|input more IH] using rev_ind.
  - split; [|exact Hbelow]. simpl. rewrite jobIds_delete.
    intros [Hne _]%list_elem_of_filter. by apply Hne.
  - rewrite steps_snoc. destruct IH as [Hnot Hlt].
    pose proof (step_jobIds (steps (handleDeleteJob j s) more) input) as Hstep.
    destruct input as [newId request|i result| |j']; destruct Hstep as [-> ->].
    + split; [|lia]. intros [Hx|Hx%list_elem_of_singleton]%elem_of_app; [done|lia].
    + done.
    + done.
    + split; [|exact Hlt]. intros [_ Hx]%list_elem_of_filter. done.
Qed.

End SchedulerInvariants.

(** * Properties of the page *)

Section WidgetFacts.

Import VideoQueue.


End WidgetFacts.

Section PageFacts.

Import Page.

Lemma truthy_true (s : string) : truthy s = true <-> s <> ""%string.
Proof.
  unfold truthy. rewrite negb_true_iff. apply String.eqb_neq.
Qed.

(** ** The preview of the reference image *)

Lemma imageStep_keeps (st : Upload * gset string) (input : ImageInput) :
  (forall url, created input = Some url -> url <> ""%string) ->
  st.2 = previewSet st.1 ->
  (forall preview, imagePreview st.1 = Some preview -> preview <> ""%string) ->
  (imageFile st.1 = None <-> imagePreview st.1 = None) ->
  (imageStep st input).2 = previewSet (imageStep st input).1
  /\ (forall preview, imagePreview (imageStep st input).1 = Some preview ->
                      preview <> ""%string)
  /\ (imageFile (imageStep st input).1 = None
      <-> imagePreview (imageStep st input).1 = None).
Proof.
  destruct st as [u live]. simpl. intros Hurl Hlive Hpreview Hboth.
  assert (Hrevoked : revokePreview u live = ∅).
  { unfold revokePreview, previewSet in *. destruct (imagePreview u) as [preview|].
    - assert (Htruthy : truthy preview = true) by (apply truthy_true; by apply Hpreview).
      rewrite Htruthy, Hlive. apply set_eq. intros x.
      rewrite elem_of_difference, elem_of_empty. tauto.
    - exact Hlive. }
  destruct input as [[file|] url|]; simpl.
  - rewrite Hrevoked. unfold previewSet. simpl. split.
    + apply set_eq. intros x. rewrite elem_of_union, elem_of_empty. tauto.
    + split; [|split; discriminate]. intros preview [= <-]. by apply Hurl.
  - done.
  - rewrite Hrevoked. unfold previewSet. simpl. split; [reflexivity|].
    split; [discriminate|done].
Qed.

(** X20. The previews do not pile up: after any sequence of image selections
    and removals (the created object URLs being non-empty), the only object
    URL not yet revoked is the one of the preview shown, and there is a
    preview exactly when a file is selected. *)
Theorem preview_urls_do_not_leak (inputs : list ImageInput) :
  Forall (fun input => forall url, created input = Some url -> url <> ""%string)
    inputs ->
  let st := foldl imageStep ({| imageFile := None; imagePreview := None |}, ∅) inputs in
  st.2 = previewSet st.1
  /\ (imageFile st.1 = None <-> imagePreview st.1 = None).
Proof.
  intros Hurls st.
  assert (Hinv : st.2 = previewSet st.1
                 /\ (forall preview, imagePreview st.1 = Some preview ->
                                     preview <> ""%string)
                 /\ (imageFile st.1 = None <-> imagePreview st.1 = None));
    [|by destruct Hinv as (? & _ & ?)].
  subst st. induction inputs as [|input inputs IH] using rev_ind.
  - simpl. split; [reflexivity|]. split; [discriminate|done].
  - apply Forall_app in Hurls as [Hurls Hlast]. rewrite Forall_singleton in Hlast.
    rewrite foldl_snoc. destruct (IH Hurls) as (H1 & H2 & H3).
    exact (imageStep_keeps _ _ Hlast H1 H2 H3).
Qed.

(** ** The API key *)

Section Key.

Variable trim : string -> string.
Variable parseConfig : string -> option (VideoConfig -> VideoConfig).

Lemma loadSaved_key (t : Settings) (localStorage : gmap string string) :
  apiKey (loadSaved trim parseConfig true t localStorage)
  = match localStorage !! keyName with
    | Some savedKey =>
      if truthy savedKey && truthy (trim savedKey) then trim savedKey else apiKey t
    | None => apiKey t
    end.
Proof.
  unfold loadSaved.
  destruct (localStorage !! configName) as [savedConfig|];
    [destruct (truthy savedConfig); [destruct (parseConfig savedConfig)|]|];
    simpl; destruct (localStorage !! keyName) as [savedKey|]; try reflexivity;
    destruct (truthy savedKey && truthy (trim savedKey)); reflexivity.
Qed.

(** X21. A key typed in one tab is kept as typed in that tab and reaches the
    later sessions and the other tabs trimmed: when its trimmed form is not
    empty (and trimming it again changes nothing), that form is what is
    stored, what a component mounted later loads and what another tab takes
    from the storage event; when it is blank, the stored key is removed, a
    component mounted later keeps its own key and another tab clears its
    key. *)
Theorem typed_key_reaches_sessions_and_tabs (typed : string) (t fresh other : Settings)
    (localStorage : gmap string string) :
  trim (trim typed) = trim typed ->
  let r := handleApiKeyChange trim true typed t localStorage in
  apiKey r.1 = typed
  /\ (trim typed <> ""%string ->
      r.2 !! keyName = Some (trim typed)
      /\ apiKey (loadSaved trim parseConfig true fresh r.2) = trim typed
      /\ apiKey (handleStorageChange trim parseConfig (storageEvent keyName r.2) other)
         = trim typed)
  /\ (trim typed = ""%string ->
      r.2 !! keyName = None
      /\ apiKey (loadSaved trim parseConfig true fresh r.2) = apiKey fresh
      /\ apiKey (handleStorageChange trim parseConfig (storageEvent keyName r.2) other)
         = ""%string).
Proof.
  intros Hidem r. subst r. unfold handleApiKeyChange.
  split; [by destruct (truthy (trim typed))|]. split.
  - intros Hkey. assert (Htruthy := proj2 (truthy_true (trim typed)) Hkey).
    rewrite Htruthy. cbn [fst snd].
    assert (Hlookup : (<[keyName:=trim typed]> localStorage) !! keyName = Some (trim typed))
      by apply lookup_insert_eq.
    split; [exact Hlookup|]. split.
    + rewrite loadSaved_key, Hlookup, Hidem, Htruthy. reflexivity.
    + unfold handleStorageChange, storageEvent. cbn [key newValue].
      rewrite bool_decide_eq_true_2 by reflexivity.
      rewrite Hlookup, Hidem, Htruthy. reflexivity.
  - intros Hkey. rewrite Hkey. cbn [fst snd truthy String.eqb negb].
    assert (Hlookup : delete keyName localStorage !! keyName = None)
      by apply lookup_delete_eq.
    split; [exact Hlookup|]. split.
    + by rewrite loadSaved_key, Hlookup.
    + unfold handleStorageChange, storageEvent. cbn [key newValue].
      rewrite bool_decide_eq_true_2 by reflexivity. by rewrite Hlookup.
Qed.

End Key.

(** ** The reading of the image file *)

Lemma splitComma_free (s : string) :
  commaFree s = true -> splitComma s = (s, []).
Proof.
  induction s as [|c s IH]; [done|]. simpl.
  intros [Hc Hs]%andb_true_iff. rewrite (IH Hs).
  apply negb_true_iff in Hc. by rewrite Hc.
Qed.

Lemma splitComma_header (header rest : string) :
  commaFree header = true ->
  splitComma (header +:+ "," +:+ rest)
  = (header, (splitComma rest).1 :: (splitComma rest).2).
Proof.
  induction header as [|c header IH]; simpl.
  - intros _. change (""%string +:+ rest) with rest. by destruct (splitComma rest).
  - intros [Hc Hs]%andb_true_iff. rewrite (IH Hs).
    apply negb_true_iff in Hc. by rewrite Hc.
Qed.

(** X22. From a data URL, a header without comma followed by a comma and the
    encoded content, [fileToBase64] resolves with exactly the encoded
    content; from a result without any comma it resolves with [undefined]. *)
Theorem base64_part_of_data_url :
  (forall header payload : string,
     commaFree header = true -> commaFree payload = true ->
     base64Part (header +:+ "," +:+ payload) = Some payload)
  /\ (forall result : string, commaFree result = true -> base64Part result = None).
Proof.
  split.
  - intros header payload Hheader Hpayload. unfold base64Part.
    rewrite (splitComma_header header payload Hheader).
    by rewrite (splitComma_free payload Hpayload).
  - intros result Hfree. unfold base64Part. by rewrite (splitComma_free result Hfree).
Qed.

End PageFacts.

(** * More worked executions *)

Section MoreExecutions.

Import VideoQueue Scenario Cases.

Open Scope nat_scope.

(** A submission that meets one 503 and is then refused with a 403. *)
Lemma retry_stops_at_refusal_witness :
  exists st' new,
    retryWithBackoff (remote Submit flakyThenDenied) 8 5000 start = (Throw forbidden, st')
    /\ log st' = new
    /\ attempts Submit new = 2
    /\ last new = Some (Call Submit).
Proof.
  destruct (retry_stops_at_refusal flakyThenDenied Submit 8 5000 start
              [unavailable] forbidden 1 2)
    as (st' & new & Hrun & _ & Hlog & Hcount & _ & Hlast).
  - simpl. exists 1. split; [reflexivity|]. split; reflexivity.
  - reflexivity.
  - right. right. reflexivity.
  - simpl. lia.
  - exists st', new. split; [exact Hrun|]. split; [exact Hlog|].
    split; [exact Hcount|exact Hlast].
Defined.

(** The error of a job whose operation is done without videos. *)
Lemma rejection_is_plain_error_witness :
  status (newError noVideosMessage) = None
  /\ code (newError noVideosMessage) = None
  /\ exists m, message (newError noVideosMessage) = Some m /\ m <> ""%string.
Proof.
  apply (rejection_is_plain_error readFile generate (statusOf (Some 1) None)
           (download []) objectURL (fun _ => [])
           "key" "a prompt" None veo 1 start (job (Some 1) None []).2).
  vm_compute. reflexivity.
Defined.

(** A job that resolves with the three videos of the operation. *)
Lemma success_means_done_with_videos_witness :
  exists (ls : Loop) (videos : list VideoData),
    done (operation ls) = true
    /\ generatedVideos (operation ls) = Some videos
    /\ 3 <= length videos.
Proof.
  destruct (success_means_done_with_videos readFile generate
              (statusOf (Some 1) (Some threeVideos)) (download []) objectURL
              (fun _ => [])
              "key" "a prompt" None veo 1 start
              (job (Some 1) (Some threeVideos) []).2
              [ objectURL "https://videos/1?alt=media&key=key";
                objectURL "https://videos/2?alt=media&key=key";
                objectURL "https://videos/3?alt=media&key=key" ])
    as (submitted & st1 & ls & st2 & videos & _ & _ & Hdone & _ & Hvideos & _ & Hlen).
  - vm_compute. reflexivity.
  - exists ls, videos. split; [exact Hdone|]. split; [exact Hvideos|exact Hlen].
Defined.

(** The polling of an operation reported done at the seventh request. *)
Lemma polling_is_bounded_witness :
  pollAttempts {| operation := finished (Some threeVideos);
                  pollAttempts := 7; messageIndex := 5 |} <= 100.
Proof.
  destruct (polling_is_bounded (statusOf (Some 7) (Some threeVideos)) "key"
              pendingOperation submitted.2) as [_ Hcap].
  apply (Hcap _ (polled (Some 7) (Some threeVideos)).2).
  vm_compute. reflexivity.
Defined.


(** A job whose submission is refused with a 403. *)
Lemma refused_submission_is_not_retried_witness :
  exists st3 : St,
    executeGeneration readFile refuse (statusOf None None) (download []) objectURL
      (fun _ => []) "key" "a prompt" None veo 1 start
    = (Throw (newError "🚫 Access denied. Please check if your API key has access to Veo 3."),
       st3)
    /\ attempts Submit (log st3) = 1
    /\ attempts Poll (log st3) = 0.
Proof.
  destruct (refused_submission_is_not_retried readFile refuse (statusOf None None)
              (download []) objectURL (fun _ => [])
              "key" "a prompt" None veo 1 start forbidden)
    as (st3 & Hrun & Hsubmit & Hpoll & Hwords).
  - intros file [=].
  - intros requestPayload w. exists w. reflexivity.
  - right. right. reflexivity.
  - exists st3. split; [|split; [exact Hsubmit|exact Hpoll]].
    destruct (Hwords eq_refl) as [_ H403]. rewrite <- (H403 eq_refl). exact Hrun.
Defined.

(** A job whose reference image cannot be read. *)
Lemma unreadable_image_sends_nothing_witness :
  exists st3 : St,
    executeGeneration unreadable generate (statusOf None None) (download []) objectURL
      (fun _ => []) "key" "a prompt" (Some picture) veo 1 start
    = (Throw (newError "The file could not be read"), st3)
    /\ attempts Submit (log st3) = 0.
Proof.
  destruct (unreadable_image_sends_nothing unreadable generate (statusOf None None)
              (download []) objectURL (fun _ => [])
              "key" "a prompt" picture veo 1 start
              (newError "The file could not be read") 0)
    as (st3 & Hrun & Hsame).
  - reflexivity.
  - exists st3. split; [exact Hrun|apply (Hsame Submit)].
Defined.

(** Three videos of which the second has no download link. *)
Lemma downloads_keep_order_witness :
  exists st3 : St,
    job (Some 1) (Some secondLinkMissing) []
    = (Ok [ objectURL "https://videos/1?alt=media&key=key";
            objectURL "https://videos/3?alt=media&key=key" ], st3).
Proof.
  apply (downloads_keep_order readFile generate
           (statusOf (Some 1) (Some secondLinkMissing)) (download []) objectURL
           (fun _ => []) (fun link => link)
           ltac:(intros i link w; eexists _, _; repeat split)
           "key" "a prompt" None veo 1 start submitted.2
           (polled (Some 1) (Some secondLinkMissing)).2 pendingOperation
           {| operation := finished (Some secondLinkMissing);
              pollAttempts := 1; messageIndex := 2 |}
           secondLinkMissing).
  - reflexivity.
  - vm_compute. reflexivity.
  - unfold maxPollAttempts. simpl. lia.
  - reflexivity.
  - discriminate.
Defined.

(** Two videos, neither with a download link. *)
Lemma no_link_no_download_witness :
  exists st3 : St,
    job (Some 1) (Some noLinks) []
    = (Throw (newError allDownloadsFailedMessage), st3)
    /\ attempts (Fetch 0) (log st3) = 0.
Proof.
  destruct (no_link_no_download readFile generate
              (statusOf (Some 1) (Some noLinks)) (download []) objectURL
              (fun _ => [])
              "key" "a prompt" None veo 1 start submitted.2
              (polled (Some 1) (Some noLinks)).2 pendingOperation
              {| operation := finished (Some noLinks);
                 pollAttempts := 1; messageIndex := 2 |}
              noLinks)
    as (st3 & Hrun & Hsame).
  - reflexivity.
  - vm_compute. reflexivity.
  - unfold maxPollAttempts. simpl. lia.
  - reflexivity.
  - discriminate.
  - apply Forall_cons. split; [left; reflexivity|].
    apply Forall_cons. split; [right; reflexivity|]. apply Forall_nil_2.
  - exists st3. split; [exact Hrun|]. rewrite (Hsame (Fetch 0)). vm_compute. reflexivity.
Defined.

(** Three videos of which the second cannot be downloaded. *)
Lemma one_failed_download_rejects_job_witness :
  exists (e : JsError) (st3 : St),
    job (Some 1) (Some threeVideos) [1] = (Throw e, st3).
Proof.
  apply (one_failed_download_rejects_job readFile generate
           (statusOf (Some 1) (Some threeVideos)) (download [1]) objectURL
           (fun _ => [])
           "key" "a prompt" None veo 1 start submitted.2
           (polled (Some 1) (Some threeVideos)).2 pendingOperation
           {| operation := finished (Some threeVideos);
              pollAttempts := 1; messageIndex := 2 |}
           threeVideos 1 "https://videos/2?alt=media").
  - reflexivity.
  - vm_compute. reflexivity.
  - unfold maxPollAttempts. simpl. lia.
  - reflexivity.
  - reflexivity.
  - discriminate.
  - intros link w. reflexivity.
Defined.

(** Five jobs on the queue of the page: four execute, in four slots. *)
Lemma running_counts_executing_jobs_witness :
  length (executing (steps (init 4) (admissions fiveJobs)))
  = size (running (steps (init 4) (admissions fiveJobs)))
  /\ length (executing (steps (init 4) (admissions fiveJobs))) <= 4.
Proof.
  destruct (running_counts_executing_jobs 4 (admissions fiveJobs)) as (_ & Hsize & Hle).
  - apply (bool_decide_unpack _). vm_compute. exact I.
  - split; [exact Hsize|exact Hle].
Defined.

(** The fifth job waits while the four slots are taken. *)
Lemma waiting_job_not_stranded_witness :
  0 < timers (steps (init 4) (admissions fiveJobs))
  \/ (size (running (steps (init 4) (admissions fiveJobs))) = 4
      /\ length (executing (steps (init 4) (admissions fiveJobs))) = 4).
Proof.
  apply (waiting_job_not_stranded 4 (admissions fiveJobs)).
  - apply (bool_decide_unpack _). vm_compute. exact I.
  - intros Hq. vm_compute in Hq. discriminate Hq.
Defined.

(** The first job ends: the fifth one starts when the timer fires. *)
Lemma freed_slot_waits_for_timer_witness :
  queue (step (steps (init 4) (admissions fiveJobs))
           (Settle "video_1_a" (Ok ["blob:1"%string])))
  = [ {| id := "video_5_e"; request := sample; sink := 4 |} ]
  /\ queue (step (step (steps (init 4) (admissions fiveJobs))
                    (Settle "video_1_a" (Ok ["blob:1"%string]))) Timer)
     = [].
Proof.
  pose proof (freed_slot_waits_for_timer 4 (admissions fiveJobs) "video_1_a"
                (Ok ["blob:1"%string])
                {| id := "video_5_e"; request := sample; sink := 4 |} []) as Hfree.
  cbv zeta in Hfree. destruct Hfree as (Hq1 & _ & _ & _ & Hq2 & _).
  - apply (bool_decide_unpack _). vm_compute. exact I.
  - vm_compute. reflexivity.
  - apply (bool_decide_unpack _). vm_compute. exact I.
  - split; [exact Hq1|exact Hq2].
Defined.

(** Three jobs for four slots. *)
Lemma few_jobs_start_at_once_witness :
  queue (steps (init 4) (admissions threeJobs)) = []
  /\ started (steps (init 4) (admissions threeJobs))
     = ["video_1_a"; "video_2_b"; "video_3_c"]%string
  /\ size (running (steps (init 4) (admissions threeJobs))) = 3.
Proof.
  apply (few_jobs_start_at_once 4 threeJobs).
  - apply (bool_decide_unpack _). vm_compute. exact I.
  - simpl. lia.
Defined.

(** The fifth job of the page has identifier 4, below the next one. *)
Lemma job_identifiers_are_distinct_witness :
  4 < nextJobId (steps (init 4) (admissions fiveJobs)).
Proof.
  destruct (job_identifiers_are_distinct 4 (admissions fiveJobs)) as [_ Hbelow].
  apply Hbelow. apply (bool_decide_unpack _). vm_compute. exact I.
Defined.

(** The fifth job is deleted; its run settles later and a sixth is submitted. *)
Lemma deleted_job_stays_deleted_witness :
  4 ∉ jobIds (steps (handleDeleteJob 4 (steps (init 4) (admissions fiveJobs)))
                afterwards).
Proof.
  apply (deleted_job_stays_deleted 4 (admissions fiveJobs) afterwards 4).
  apply (bool_decide_unpack _). vm_compute. exact I.
Defined.


(** Two selections, a removal and a cancelled selection. *)
Lemma preview_urls_do_not_leak_witness :
  (foldl Page.imageStep
     ({| Page.imageFile := None; Page.imagePreview := None |}, ∅) selections).2
  = Page.previewSet
      (foldl Page.imageStep
         ({| Page.imageFile := None; Page.imagePreview := None |}, ∅) selections).1.
Proof.
  pose proof (preview_urls_do_not_leak selections) as Hleak.
  cbv zeta in Hleak. apply Hleak.
  repeat (apply Forall_cons; split; [intros url [= <-]; discriminate|]).
  apply Forall_nil_2.
Defined.

(** A key typed with a space on each side. *)
Lemma typed_key_reaches_sessions_and_tabs_witness :
  Page.apiKey
    (Page.loadSaved trimSpaces (fun _ => None) true noSettings
       (Page.handleApiKeyChange trimSpaces true " sk-123 " noSettings ∅).2)
  = trimSpaces " sk-123 ".
Proof.
  pose proof (typed_key_reaches_sessions_and_tabs trimSpaces (fun _ => None)
                " sk-123 " noSettings noSettings noSettings ∅) as Hkey.
  cbv zeta in Hkey. destruct Hkey as (_ & Hsome & _).
  - vm_compute. reflexivity.
  - destruct Hsome as (_ & Hload & _); [vm_compute; discriminate|exact Hload].
Defined.

(** The data URL of a PNG file. *)
Lemma base64_part_of_data_url_witness :
  Page.base64Part ("data:image/png;base64" +:+ "," +:+ "iVBORw0KGgo=")
  = Some "iVBORw0KGgo="%string.
Proof.
  destruct base64_part_of_data_url as [Hpart _].
  apply Hpart; reflexivity.
Defined.

End MoreExecutions.
